(** * The OtterClock: a shallow embedding of [otter/scheduler.py]

    The scheduler is written against Twisted deferreds.  A deferred that has
    settled is either fired with a value or failed with an exception, and the
    callback chains of the source ([addCallback], [addErrback]) are pure
    functions of that outcome; the embedding therefore runs every chain to
    its settled outcome over an explicit world.  The world holds what the
    scheduler mutates (the per-batch set objects, the service's partitioner
    handle, the timer flag), what it emits (log lines, calls to its
    collaborators) and the state of the collaborators themselves, which is
    abstract: the store, the scaling groups, the coordination service, the
    wall clock and croniter are reached only through the [Env] interface.
    Where the source starts several deferreds and gathers them, they settle
    here in list order, which is one of the orders the reactor allows. *)

From stdpp Require Import base gmap sets list strings.
From Stdlib Require Import ZArith Lia Ascii.

(** ** Exceptions and settled deferreds *)

Inductive exn_type : Type :=
| TCannotExecutePolicyError
| TNoSuchScalingGroupError
| TNoSuchPolicyError
| TNoSuchEntityError
| TAttributeError
| TCroniterError
| TFirstError
| TOtherError.

#[global] Instance exn_type_eq_dec : EqDecision exn_type.
Proof. solve_decision. Defined.

Inductive exn : Type :=
| CannotExecutePolicyError
| NoSuchScalingGroupError
| NoSuchPolicyError
| NoSuchEntityError
| AttributeError
| CroniterError
| FirstError (subFailure : exn) (index : nat)
| OtherError (msg : string).

Definition type_of (e : exn) : exn_type :=
  match e with
  | CannotExecutePolicyError => TCannotExecutePolicyError
  | NoSuchScalingGroupError => TNoSuchScalingGroupError
  | NoSuchPolicyError => TNoSuchPolicyError
  | NoSuchEntityError => TNoSuchEntityError
  | AttributeError => TAttributeError
  | CroniterError => TCroniterError
  | FirstError _ _ => TFirstError
  | OtherError _ => TOtherError
  end.

(** The outcome of a settled deferred (or of a call that may raise). *)
Inductive result (A : Type) : Type :=
| Ok (a : A)
| Failed (failure : exn).
Arguments Ok {A} a.
Arguments Failed {A} failure.

(** ** Events *)

(** An event is the dict the store hands out; [cron] is [None] or a string,
    and Python's truth test on it rejects both [None] and the empty string. *)
Record Event : Type := mkEvent {
  tenantId : string;
  groupId : string;
  policyId : string;
  trigger : Z;
  cron : option string;
  version : string
}.

Definition truthy (c : option string) : bool :=
  match c with
  | Some s => negb (String.eqb s "")
  | None => false
  end.

(** [event['trigger'] = t]: the only key the scheduler ever writes.  The
    source writes it into the dict it was handed; the events of a fetch are
    distinct dicts, so the write is local to one event. *)
Definition set_trigger (e : Event) (t : Z) : Event :=
  {| tenantId := tenantId e; groupId := groupId e; policyId := policyId e;
     trigger := t; cron := cron e; version := version e |}.

(** ** The partitioner handle as the tick observes it

    The tick reads four flags of the handle, one after the other; each is
    true in one state of the handle, and the tick reads them of one state. *)

Inductive PartitionState : Type :=
| Allocating
| Allocated
| Release
| Failure
| Unknown (name : string).

Definition state_name (s : PartitionState) : string :=
  match s with
  | Allocating => "ALLOCATING"
  | Allocated => "ALLOCATED"
  | Release => "RELEASE"
  | Failure => "FAILURE"
  | Unknown name => name
  end.

Definition allocating (s : PartitionState) : bool :=
  match s with Allocating => true | _ => false end.
Definition release (s : PartitionState) : bool :=
  match s with Release => true | _ => false end.
Definition failed (s : PartitionState) : bool :=
  match s with Failure => true | _ => false end.
Definition allocated (s : PartitionState) : bool :=
  match s with Allocated => true | _ => false end.

Definition handle : Type := nat.

(** ** What the scheduler emits *)

Inductive log_entry : Type :=
| LogMsg (text : string)
| LogErr (failure : option exn) (why : string).

Inductive call : Type :=
| CFetchAndDelete (bucket now batchsize : Z) (r : result (list Event))
| CAddCronEvents (events : list Event) (r : result unit)
| CGetScalingGroup (tenant group : string)
| CModifyState (tenant group txn policy ver : string) (r : result unit)
| CSetPartitioner (path : string) (set : gset Z) (time_boundary : Z) (h : handle)
| CReleaseSet (h : handle) (r : result unit)
| CFinish (h : handle) (r : result unit)
| CTimerStart
| CTimerStop.

(** ** The collaborators

    None of these is defined in [scheduler.py]: the store and the group it
    hands out, kazoo's set partitioner, [croniter], [datetime.utcnow] and
    [generate_transaction_id].  Each is an operation on an abstract state; a
    deferred it returns is represented by its settled outcome. *)
Class Env (St : Type) : Type := {
  env_utcnow : St → Z * St;
  env_generate_transaction_id : St → string * St;
  env_croniter_get_next : string → Z → result Z;
  env_fetch_and_delete : Z → Z → Z → St → result (list Event) * St;
  env_add_cron_events : list Event → St → result unit * St;
  env_modify_state :
    string → string → string → string → string → St → result unit * St;
  env_SetPartitioner : string → gset Z → Z → St → handle * St;
  env_state : handle → St → PartitionState;
  env_owned : handle → St → list Z;
  env_release_set : handle → St → result unit * St;
  env_finish : handle → St → result unit * St
}.

(** ** The world *)

Record World (St : Type) : Type := mkWorld {
  ext : St;
  sets : list (gset string);
  kz_partition : option handle;
  running : bool;
  logs : list log_entry;
  calls : list call
}.
Arguments mkWorld {St}.
Arguments ext {St}.
Arguments sets {St}.
Arguments kz_partition {St}.
Arguments running {St}.
Arguments logs {St}.
Arguments calls {St}.

(** The constructor arguments the service keeps. *)
Record SchedulerService : Type := mkService {
  interval : Z;
  buckets : list Z;
  zk_partition_path : string
}.

(** What a tick hands back to the timer: nothing, or a deferred. *)
Inductive tick_return : Type :=
| RetNone
| RetReleased (d : result unit)
| RetGathered (d : result (list unit)).

Section Scheduler.
Context {St : Type} {E : Env St}.

(** *** Computations over the world *)

Definition M (A : Type) : Type := World St → result A * World St.

Definition ret {A} (a : A) : M A := λ w, (Ok a, w).

Definition raise {A} (e : exn) : M A := λ w, (Failed e, w).

Definition bind {A B} (m : M A) (f : A → M B) : M B :=
  λ w, match m w with
       | (Ok a, w') => f a w'
       | (Failed e, w') => (Failed e, w')
       end.

(** [d.addCallback(f)] and [d.addErrback(g)] on a deferred run to its end. *)
Definition addCallback {A B} (d : M A) (f : A → M B) : M B := bind d f.

Definition addErrback {A} (d : M A) (g : exn → M A) : M A :=
  λ w, match d w with
       | (Ok a, w') => (Ok a, w')
       | (Failed e, w') => g e w'
       end.

(** Running a call that returns a deferred, keeping the deferred. *)
Definition capture {A} (m : M A) : M (result A) :=
  λ w, let '(r, w') := m w in (Ok r, w').

(** A list comprehension of calls that each return a deferred. *)
Fixpoint comprehension {A B} (f : A → M B) (l : list A) : M (list (result B)) :=
  match l with
  | [] => ret []
  | a :: l' =>
      bind (capture (f a)) (λ r,
      bind (comprehension f l') (λ rs, ret (r :: rs)))
  end.

(** [defer.gatherResults]: the list of values when every deferred fired,
    [FirstError] of the first failure otherwise. *)
Fixpoint gather_from {A} (index : nat) (ds : list (result A)) : result (list A) :=
  match ds with
  | [] => Ok []
  | Ok a :: ds' =>
      match gather_from (S index) ds' with
      | Ok l => Ok (a :: l)
      | Failed e => Failed e
      end
  | Failed e :: _ => Failed (FirstError e index)
  end.

Definition gatherResults {A} (ds : list (result A)) : M (list A) :=
  λ w, (gather_from 0 ds, w).

(** *** World primitives *)

Definition emit_log (l : log_entry) : M unit :=
  λ w, (Ok tt, mkWorld (ext w) (sets w) (kz_partition w) (running w)
                       (logs w ++ [l]) (calls w)).

Definition emit_call (c : call) : M unit :=
  λ w, (Ok tt, mkWorld (ext w) (sets w) (kz_partition w) (running w)
                       (logs w) (calls w ++ [c])).

Definition with_ext {A} (op : St → A * St) : M A :=
  λ w, let '(a, s) := op (ext w) in
       (Ok a, mkWorld s (sets w) (kz_partition w) (running w) (logs w) (calls w)).

Definition read_ext {A} (f : St → A) : M A := λ w, (Ok (f (ext w)), w).

(** [set()]: a fresh, empty set object; the reference is its index. *)
Definition new_set : M nat :=
  λ w, (Ok (length (sets w)),
        mkWorld (ext w) (sets w ++ [∅]) (kz_partition w) (running w)
                (logs w) (calls w)).

(** [s.add(x)] through a reference. *)
Definition set_add (ref : nat) (x : string) : M unit :=
  λ w, (Ok tt,
        mkWorld (ext w) (alter (λ s, s ∪ {[x]}) ref (sets w)) (kz_partition w)
                (running w) (logs w) (calls w)).

Definition set_read (ref : nat) : M (gset string) :=
  λ w, (Ok (default ∅ (sets w !! ref)), w).

Definition set_kz_partition (h : handle) : M unit :=
  λ w, (Ok tt, mkWorld (ext w) (sets w) (Some h) (running w) (logs w) (calls w)).

Definition set_running (b : bool) : M unit :=
  λ w, (Ok tt, mkWorld (ext w) (sets w) (kz_partition w) b (logs w) (calls w)).

(** [self.kz_partition.<attr>]: the attribute of [None] does not exist. *)
Definition get_kz_partition : M handle :=
  λ w, match kz_partition w with
       | Some h => (Ok h, w)
       | None => (Failed AttributeError, w)
       end.

(** *** Logging and failure helpers *)

(** Modelled from the spec: the bound logger of [otter.log], which is not
    among the sources.  [log.msg] records a line at info level; the bound
    fields and the rendering of the format are left out. *)
Definition log_msg (text : string) : M unit := emit_log (LogMsg text).

(** Modelled from the spec: [log.err(failure, why)] of the same logger
    records the failure and returns [None], so that as an errback it turns
    the failure into a fired deferred. *)
Definition log_err (failure : exn) (why : string) : M unit :=
  emit_log (LogErr (Some failure) why).

Definition log_err_text (why : string) : M unit := emit_log (LogErr None why).

(** [failure.trap] with a list of error types: re-raise unless the failure
    is of one of them. *)
Definition trap (failure : exn) (errorTypes : list exn_type) : M unit :=
  if bool_decide (type_of failure ∈ errorTypes) then ret tt else raise failure.

(** Modelled from the spec: [otter.util.deferredutils.ignore_and_log], which
    is not among the sources.  An expected refusal is logged at info level
    and swallowed; any other failure passes through. *)
Definition ignore_and_log (failure : exn) (exception_type : exn_type)
    (msg : string) : M unit :=
  bind (trap failure [exception_type]) (λ _, log_msg msg).

(** *** Collaborator calls, recorded *)

Definition utcnow : M Z := with_ext env_utcnow.

Definition generate_transaction_id : M string :=
  with_ext env_generate_transaction_id.

Definition settle {A} (op : St → result A * St) (record : result A → call) : M A :=
  λ w, let '(r, s) := op (ext w) in
       (r, mkWorld s (sets w) (kz_partition w) (running w) (logs w)
                   (calls w ++ [record r])).

Definition store_fetch_and_delete (bucket now batchsize : Z) : M (list Event) :=
  settle (env_fetch_and_delete bucket now batchsize)
         (CFetchAndDelete bucket now batchsize).

Definition store_add_cron_events (events : list Event) : M unit :=
  settle (env_add_cron_events events) (CAddCronEvents events).

Definition store_get_scaling_group (tenant_id group_id : string)
    : M (string * string) :=
  bind (emit_call (CGetScalingGroup tenant_id group_id)) (λ _,
  ret (tenant_id, group_id)).

Definition group_modify_state (group : string * string)
    (txn policy_id ver : string) : M unit :=
  settle (env_modify_state (fst group) (snd group) txn policy_id ver)
         (CModifyState (fst group) (snd group) txn policy_id ver).

Definition kz_SetPartitioner (path : string) (set : gset Z) (time_boundary : Z)
    : M handle :=
  bind (with_ext (env_SetPartitioner path set time_boundary)) (λ h,
  bind (emit_call (CSetPartitioner path set time_boundary h)) (λ _,
  ret h)).

Definition partition_release_set (h : handle) : M unit :=
  settle (env_release_set h) (CReleaseSet h).

Definition partition_finish (h : handle) : M unit :=
  settle (env_finish h) (CFinish h).

(** *** [scheduler.py] *)

Definition next_cron_occurrence (cron : string) : M Z :=
  bind utcnow (λ start_time,
  match env_croniter_get_next cron start_time with
  | Ok t => ret t
  | Failed e => raise e
  end).

(** The [for] loop of [add_cron_events]; [deleted_policy_ids] is not written
    while it runs. *)
Fixpoint cron_loop (events : list Event) (deleted_policy_ids : gset string)
    (new_cron_events : list Event) : M (list Event) :=
  match events with
  | [] => ret new_cron_events
  | event :: rest =>
      if truthy (cron event)
         && negb (bool_decide (policyId event ∈ deleted_policy_ids))
      then
        bind (next_cron_occurrence (default "" (cron event))) (λ t,
        cron_loop rest deleted_policy_ids
                  (new_cron_events ++ [set_trigger event t]))
      else cron_loop rest deleted_policy_ids new_cron_events
  end.

Definition add_cron_events (events : list Event) (deleted_policy_ids : nat)
    : M unit :=
  match events with
  | [] => ret tt
  | _ =>
      bind (set_read deleted_policy_ids) (λ deleted,
      bind (cron_loop events deleted []) (λ new_cron_events,
      bind (log_msg "Adding {new_cron_events} cron events") (λ _,
      store_add_cron_events new_cron_events)))
  end.

Definition collect_deleted_policy (deleted_policy_ids : nat)
    (policy_id : string) (failure : exn) : M unit :=
  bind (trap failure [TNoSuchScalingGroupError; TNoSuchPolicyError]) (λ _,
  set_add deleted_policy_ids policy_id).

Definition execute_event (event : Event) (deleted_policy_ids : nat) : M unit :=
  let tenant_id := tenantId event in
  let group_id := groupId event in
  let policy_id := policyId event in
  bind (log_msg ("Scheduler executing policy " +:+ policy_id)) (λ _,
  bind (store_get_scaling_group tenant_id group_id) (λ group,
  bind generate_transaction_id (λ txn,
  let d := group_modify_state group txn policy_id (version event) in
  let d := addErrback d (λ f,
             ignore_and_log f TCannotExecutePolicyError
               ("Scheduler cannot execute policy " +:+ policy_id)) in
  let d := addErrback d (collect_deleted_policy deleted_policy_ids policy_id) in
  let d := addErrback d (λ f,
             log_err f ("Scheduler failed to execute policy " +:+ policy_id)) in
  d))).

Definition process_events (events : list Event) : M Z :=
  match events with
  | [] => ret 0%Z
  | _ =>
      bind (log_msg "Processing {num_events} events") (λ _,
      bind new_set (λ deleted_policy_ids,
      bind (comprehension (λ event, execute_event event deleted_policy_ids)
                          events) (λ deferreds,
      let d := gatherResults deferreds in
      let d := addCallback d (λ _, add_cron_events events deleted_policy_ids) in
      addCallback d (λ _, ret (Z.of_nat (length events))))))
  end.

(** *** The drain loop

    [_do_check] re-enters itself from its own callback, so the embedding
    carries fuel: [None] is a loop that has not stopped within [fuel] fetches. *)

Definition MF (A : Type) : Type := World St → option (result A * World St).

Definition liftF {A} (m : M A) : MF A := λ w, Some (m w).

Definition retF {A} (a : A) : MF A := liftF (ret a).

Definition bindF {A B} (m : MF A) (f : A → MF B) : MF B :=
  λ w, match m w with
       | Some (Ok a, w') => f a w'
       | Some (Failed e, w') => Some (Failed e, w')
       | None => None
       end.

Definition addErrbackF {A} (d : MF A) (g : exn → M A) : MF A :=
  λ w, match d w with
       | Some (Ok a, w') => Some (Ok a, w')
       | Some (Failed e, w') => Some (g e w')
       | None => None
       end.

Definition captureF {A} (m : MF A) : MF (result A) :=
  λ w, match m w with
       | Some (r, w') => Some (Ok r, w')
       | None => None
       end.

Fixpoint comprehensionF {A B} (f : A → MF B) (l : list A)
    : MF (list (result B)) :=
  match l with
  | [] => retF []
  | a :: l' =>
      bindF (captureF (f a)) (λ r,
      bindF (comprehensionF f l') (λ rs, retF (r :: rs)))
  end.

Fixpoint _do_check (fuel : nat) (bucket now batchsize : Z) : MF unit :=
  match fuel with
  | O => λ _, None
  | S fuel' =>
      let check_for_more (num_events : Z) : MF unit :=
        if (num_events =? batchsize)%Z
        then _do_check fuel' bucket now batchsize
        else retF tt in
      let d := liftF (store_fetch_and_delete bucket now batchsize) in
      let d := bindF d (λ events, liftF (process_events events)) in
      let d := bindF d check_for_more in
      let d := addErrbackF d (λ f, log_err f "") in
      d
  end.

Definition check_events_in_bucket (fuel : nat) (bucket now batchsize : Z)
    : MF unit :=
  _do_check fuel bucket now batchsize.

(** *** The service *)


(** [TimerService.stopService] stops the looping call; the deferred of
    [finish()] is what the caller gets. *)
Definition stopService (self : SchedulerService) : M (result unit) :=
  bind (emit_call CTimerStop) (λ _,
  bind (set_running false) (λ _,
  bind get_kz_partition (λ h,
  capture (partition_finish h)))).

Definition rejoin (self : SchedulerService) : M unit :=
  bind (kz_SetPartitioner (zk_partition_path self)
                          (list_to_set (buckets self)) 15) (λ h,
  set_kz_partition h).

Definition check_events (fuel : nat) (self : SchedulerService) (batchsize : Z)
    : MF tick_return :=
  bindF (liftF get_kz_partition) (λ h,
  bindF (liftF (read_ext (env_state h))) (λ st,
  if allocating st then
    bindF (liftF (log_msg "Partition allocating")) (λ _, retF RetNone)
  else if release st then
    bindF (liftF (log_msg "Partition changed. Repartitioning")) (λ _,
    bindF (liftF (capture (partition_release_set h))) (λ d,
    retF (RetReleased d)))
  else if failed st then
    bindF (liftF (log_msg "Partition failed. Starting new")) (λ _,
    bindF (liftF (rejoin self)) (λ _, retF RetNone))
  else if negb (allocated st) then
    bindF (liftF (log_err_text
             ("Unknown state " +:+ state_name st
              +:+ ". This cannot happen. Starting new"))) (λ _,
    bindF (liftF (capture (partition_finish h))) (λ _,
    bindF (liftF (rejoin self)) (λ _, retF RetNone)))
  else
    bindF (liftF (read_ext (env_owned h))) (λ owned,
    bindF (liftF utcnow) (λ now,
    bindF (liftF generate_transaction_id) (λ _,
    bindF (liftF (log_msg "Got buckets {buckets}")) (λ _,
    bindF (comprehensionF
             (λ bucket, check_events_in_bucket fuel bucket now batchsize)
             owned) (λ ds,
    bindF (liftF (capture (gatherResults ds))) (λ d,
    retF (RetGathered d))))))))).

End Scheduler.

(** ** Observers of a batch

    What the collaborators answer while the events of a batch execute, and
    what the executor is expected to emit for each answer. *)

Section Observers.
Context {St : Type} {E : Env St}.

(** The transaction id drawn for an event and the settled outcome of its
    [modify_state]. *)
Definition outcome (e : Event) (s : St) : (string * result unit) * St :=
  let '(txn, s1) := env_generate_transaction_id s in
  let '(r, s2) :=
    env_modify_state (tenantId e) (groupId e) txn (policyId e) (version e) s1 in
  ((txn, r), s2).

(** The same for a whole batch, in batch order. *)
Fixpoint outcomes (events : list Event) (s : St)
    : list (string * result unit) * St :=
  match events with
  | [] => ([], s)
  | e :: es =>
      let '(o, s1) := outcome e s in
      let '(os, s2) := outcomes es s1 in
      (o :: os, s2)
  end.

End Observers.

Definition tombstoning (r : result unit) : bool :=
  match r with
  | Failed NoSuchScalingGroupError | Failed NoSuchPolicyError => true
  | _ => false
  end.

Definition event_calls (e : Event) (o : string * result unit) : list call :=
  [CGetScalingGroup (tenantId e) (groupId e);
   CModifyState (tenantId e) (groupId e) o.1 (policyId e) (version e) o.2].

Definition event_logs (e : Event) (o : string * result unit) : list log_entry :=
  LogMsg ("Scheduler executing policy " +:+ policyId e) ::
  match o.2 with
  | Ok _ => []
  | Failed CannotExecutePolicyError =>
      [LogMsg ("Scheduler cannot execute policy " +:+ policyId e)]
  | Failed NoSuchScalingGroupError | Failed NoSuchPolicyError => []
  | Failed f =>
      [LogErr (Some f) ("Scheduler failed to execute policy " +:+ policyId e)]
  end.

Definition event_tombstone (e : Event) (o : string * result unit) : gset string :=
  if tombstoning o.2 then {[policyId e]} else ∅.

Fixpoint batch_calls (events : list Event) (os : list (string * result unit))
    : list call :=
  match events, os with
  | e :: es, o :: os' => event_calls e o ++ batch_calls es os'
  | _, _ => []
  end.

Fixpoint batch_logs (events : list Event) (os : list (string * result unit))
    : list log_entry :=
  match events, os with
  | e :: es, o :: os' => event_logs e o ++ batch_logs es os'
  | _, _ => []
  end.

Fixpoint tombstones (events : list Event) (os : list (string * result unit))
    : gset string :=
  match events, os with
  | e :: es, o :: os' => event_tombstone e o ∪ tombstones es os'
  | _, _ => ∅
  end.

(** The events a rescheduling pass keeps: recurring and not tombstoned. *)
Definition survives (deleted : gset string) (e : Event) : bool :=
  truthy (cron e) && negb (bool_decide (policyId e ∈ deleted)).

(** [s.add] of several members through a reference. *)
Definition grow (ref : nat) (T : gset string) (l : list (gset string))
    : list (gset string) :=
  alter (λ s, s ∪ T) ref l.

Definition survivors (deleted : gset string) (events : list Event) : list Event :=
  filter (λ e, survives deleted e) events.

(** [e'] is [e] with a new trigger and nothing else changed. *)
Definition retriggered (e e' : Event) : Prop := e' = set_trigger e (trigger e').

Section BatchObservers.
Context {St : Type} {E : Env St}.

(** The next trigger of a rescheduled event: croniter's answer for the
    event's expression at a reading of the clock, taken in a collaborator
    state that satisfies [P]. *)
Definition rescheduled (P : St → Prop) (e e' : Event) : Prop :=
  retriggered e e' ∧
  ∃ s, P s ∧
    env_croniter_get_next (default "" (cron e)) (env_utcnow s).1
    = Ok (trigger e').

(** The world when every deferred of the batch has settled and
    [gatherResults] is about to call back. *)
Definition settled (events : list Event) (w : World St) : World St :=
  let os := (outcomes events (ext w)).1 in
  mkWorld (outcomes events (ext w)).2
          (sets w ++ [tombstones events os])
          (kz_partition w) (running w)
          (logs w ++ LogMsg "Processing {num_events} events"
                  :: batch_logs events os)
          (calls w ++ batch_calls events os).

End BatchObservers.

(** ** croniter *)

(** Modelled from the spec: [croniter], the library [next_cron_occurrence]
    delegates to, is not among the sources.  It is modelled as the spec
    words it: the next occurrence strictly after a start time, at minute
    resolution, under standard five-field cron semantics (minute, hour, day
    of month, month, day of week; lists, ranges and steps; when both
    day fields are restricted a day matches if either does).  Times are
    seconds since 1970-01-01T00:00:00Z. *)
Module Cron.

Local Open Scope Z_scope.

(** *** The proleptic Gregorian calendar *)

Definition days_from_civil (y m d : Z) : Z :=
  let y := if m <=? 2 then y - 1 else y in
  let era := y / 400 in
  let yoe := y - era * 400 in
  let mp := if m >? 2 then m - 3 else m + 9 in
  let doy := (153 * mp + 2) / 5 + d - 1 in
  let doe := yoe * 365 + yoe / 4 - yoe / 100 + doy in
  era * 146097 + doe - 719468.

(** The (year of the era, month, day) of a day of a 400-year era. *)
Definition civil_of_era_day (doe : Z) : Z * Z * Z :=
  let yoe := (doe - doe / 1460 + doe / 36524 - doe / 146096) / 365 in
  let doy := doe - (365 * yoe + yoe / 4 - yoe / 100) in
  let mp := (5 * doy + 2) / 153 in
  let d := doy - (153 * mp + 2) / 5 + 1 in
  let m := if mp <? 10 then mp + 3 else mp - 9 in
  (if m <=? 2 then yoe + 1 else yoe, m, d).

(** The (year, month, day) of a day number. *)
Definition civil_from_days (z : Z) : Z * Z * Z :=
  let z := z + 719468 in
  let era := z / 146097 in
  let '(y, m, d) := civil_of_era_day (z - era * 146097) in
  (y + era * 400, m, d).

(** A month from 1 to 12 and a day from 1 to 31, checked for [n] era days
    from [doe] on. *)
Definition era_day_ok (doe : Z) : bool :=
  let '(_, m, d) := civil_of_era_day doe in
  (1 <=? m) && (m <=? 12) && (1 <=? d) && (d <=? 31).

Fixpoint era_days_ok (n : nat) (doe : Z) : bool :=
  match n with
  | O => true
  | S n' => era_day_ok doe && era_days_ok n' (doe + 1)
  end.

Definition utc (y m d hh mm ss : Z) : Z :=
  days_from_civil y m d * 86400 + hh * 3600 + mm * 60 + ss.

Definition minute_of (t : Z) : Z := (t / 60) mod 60.
Definition hour_of (t : Z) : Z := (t / 3600) mod 24.
Definition day_of (t : Z) : Z := (civil_from_days (t / 86400)).2.
Definition month_of (t : Z) : Z := (civil_from_days (t / 86400)).1.2.
(** 0 is Sunday; 1970-01-01 was a Thursday. *)
Definition weekday_of (t : Z) : Z := (t / 86400 + 4) mod 7.

(** *** Expressions *)

(** One item of a field: the values [first], [first + step], ... up to
    [last]. *)
Record item : Type := mkItem { first : Z; last : Z; step : Z }.

(** A field: its items, and whether it was written as a bare [*]. *)
Record field : Type := mkField { star : bool; items : list item }.

Record expr : Type := mkExpr {
  minutes : field;
  hours : field;
  days : field;
  months : field;
  weekdays : field
}.

Definition item_matches (v : Z) (i : item) : bool :=
  (first i <=? v) && (v <=? last i) && ((v - first i) mod step i =? 0).

Definition field_matches (f : field) (v : Z) : bool :=
  existsb (item_matches v) (items f).

Definition day_matches (e : expr) (t : Z) : bool :=
  let dom := field_matches (days e) (day_of t) in
  let dow := field_matches (weekdays e) (weekday_of t)
             || ((weekday_of t =? 0) && field_matches (weekdays e) 7) in
  if star (days e) || star (weekdays e) then dom && dow else dom || dow.

Definition matches (e : expr) (t : Z) : bool :=
  field_matches (minutes e) (minute_of t)
  && field_matches (hours e) (hour_of t)
  && field_matches (months e) (month_of t)
  && day_matches e t.

(** *** Parsing *)

Fixpoint split_on (c : ascii) (s : string) : list string :=
  match s with
  | EmptyString => [EmptyString]
  | String a s' =>
      if Ascii.eqb a c then EmptyString :: split_on c s'
      else match split_on c s' with
           | [] => [String a EmptyString]
           | x :: xs => String a x :: xs
           end
  end.

Definition digit (a : ascii) : option Z :=
  let n := Z.of_nat (nat_of_ascii a) in
  if (48 <=? n) && (n <=? 57) then Some (n - 48) else None.

Fixpoint parse_digits (s : string) (acc : Z) : option Z :=
  match s with
  | EmptyString => Some acc
  | String a s' =>
      match digit a with
      | Some d => parse_digits s' (10 * acc + d)
      | None => None
      end
  end.

Definition parse_number (s : string) : option Z :=
  match s with
  | EmptyString => None
  | _ => parse_digits s 0
  end.

Definition in_range (lo hi v : Z) : bool := (lo <=? v) && (v <=? hi).

Definition parse_range (lo hi : Z) (s : string) : option (Z * Z) :=
  if String.eqb s "*" then Some (lo, hi)
  else match split_on "-" s with
       | [a] =>
           match parse_number a with
           | Some x => if in_range lo hi x then Some (x, x) else None
           | None => None
           end
       | [a; b] =>
           match parse_number a, parse_number b with
           | Some x, Some y =>
               if in_range lo hi x && in_range lo hi y && (x <=? y)
               then Some (x, y) else None
           | _, _ => None
           end
       | _ => None
       end.

Definition parse_item (lo hi : Z) (s : string) : option item :=
  match split_on "/" s with
  | [r] =>
      match parse_range lo hi r with
      | Some (x, y) => Some (mkItem x y 1)
      | None => None
      end
  | [r; st] =>
      match parse_range lo hi r, parse_number st with
      | Some (x, y), Some k =>
          if (1 <=? k) && negb (x =? y) then Some (mkItem x y k) else None
      | _, _ => None
      end
  | _ => None
  end.

Fixpoint parse_items (lo hi : Z) (l : list string) : option (list item) :=
  match l with
  | [] => Some []
  | s :: l' =>
      match parse_item lo hi s, parse_items lo hi l' with
      | Some i, Some l'' => Some (i :: l'')
      | _, _ => None
      end
  end.

Definition parse_field (lo hi : Z) (s : string) : option field :=
  match parse_items lo hi (split_on "," s) with
  | Some l => Some (mkField (String.eqb s "*") l)
  | None => None
  end.

Definition nonempty (s : string) : bool := negb (String.eqb s "").

Definition parse (s : string) : option expr :=
  match List.filter nonempty (split_on " " s) with
  | [mi; ho; dm; mo; dw] =>
      match parse_field 0 59 mi, parse_field 0 23 ho, parse_field 1 31 dm,
            parse_field 1 12 mo, parse_field 0 7 dw with
      | Some a, Some b, Some c, Some d, Some e => Some (mkExpr a b c d e)
      | _, _, _, _, _ => None
      end
  | _ => None
  end.

(** *** The next occurrence *)

(** Scan [2 ^ depth] consecutive minutes from [t]: the first one that
    matches, or else the minute to go on from. *)
Fixpoint search (e : expr) (depth : nat) (t : Z) : Z + Z :=
  match depth with
  | O => if matches e t then inl t else inr (t + 60)
  | S depth' =>
      match search e depth' t with
      | inl found => inl found
      | inr t' => search e depth' t'
      end
  end.

(** [2 ^ 25] minutes are a little under 64 years. *)
Definition horizon : nat := 25.

(** Modelled from the spec: [croniter(cron, start_time).get_next()], the
    first minute strictly after [start_time] on which the expression
    matches; an expression that does not parse, or does not match within
    the horizon, raises. *)
Definition get_next (cron : string) (start_time : Z) : result Z :=
  match parse cron with
  | None => Failed CroniterError
  | Some e =>
      match search e horizon ((start_time / 60 + 1) * 60) with
      | inl t => Ok t
      | inr _ => Failed CroniterError
      end
  end.

End Cron.

(** ** An in-memory store *)

(** Modelled from the spec: the store ([fetch_and_delete],
    [add_cron_events], the group's [modify_state]), the coordination handle,
    the clock and the transaction ids are collaborators that are not among
    the sources.  This instance follows their contracts: the fetch removes
    and returns up to [batchsize] events of the bucket with
    [trigger ≤ now]; the bulk insert appends; a group's [modify_state]
    settles with the next outcome of a script (and fires once the script is
    used up); the clock never runs backwards. *)
Module MemStore.

Record state : Type := mkState {
  clock : Z;
  pace : nat;
  txns : nat;
  events : list (Z * Event);
  bucket_of : Event → Z;
  script : list (result unit);
  partition : PartitionState;
  owned : list Z;
  handles : nat
}.

Definition due (bucket now : Z) (be : Z * Event) : bool :=
  (be.1 =? bucket)%Z && (trigger be.2 <=? now)%Z.

(** The first [n] due events of the bucket, and the table without them. *)
Fixpoint take_due (n : nat) (bucket now : Z) (table : list (Z * Event))
    : list Event * list (Z * Event) :=
  match n, table with
  | O, _ => ([], table)
  | _, [] => ([], [])
  | S n', be :: rest =>
      if due bucket now be
      then let '(got, kept) := take_due n' bucket now rest in
           (be.2 :: got, kept)
      else let '(got, kept) := take_due n bucket now rest in
           (got, be :: kept)
  end.

Definition utcnow (s : state) : Z * state :=
  (clock s,
   mkState (clock s + Z.of_nat (pace s)) (pace s) (txns s) (events s)
           (bucket_of s) (script s) (partition s) (owned s) (handles s)).

Definition generate_transaction_id (s : state) : string * state :=
  (String.concat "" (replicate (S (txns s)) "t"),
   mkState (clock s) (pace s) (S (txns s)) (events s) (bucket_of s)
           (script s) (partition s) (owned s) (handles s)).

(** Modelled from the spec: the store's atomic fetch-and-delete of up to
    [batchsize] events of the bucket with [trigger ≤ now]. *)
Definition fetch_and_delete (bucket now batchsize : Z) (s : state)
    : result (list Event) * state :=
  let '(got, kept) := take_due (Z.to_nat batchsize) bucket now (events s) in
  (Ok got,
   mkState (clock s) (pace s) (txns s) kept (bucket_of s) (script s)
           (partition s) (owned s) (handles s)).

(** Modelled from the spec: the store's bulk insert. *)
Definition add_cron_events (new : list Event) (s : state)
    : result unit * state :=
  (Ok tt,
   mkState (clock s) (pace s) (txns s)
           (events s ++ map (λ e, (bucket_of s e, e)) new)
           (bucket_of s) (script s) (partition s) (owned s) (handles s)).

(** Modelled from the spec: the group's serialized modify operation, as
    far as the scheduler sees it: it settles, with success or a failure. *)
Definition modify_state (tenant group txn policy ver : string) (s : state)
    : result unit * state :=
  (default (Ok tt) (head (script s)),
   mkState (clock s) (pace s) (txns s) (events s) (bucket_of s)
           (tail (script s)) (partition s) (owned s) (handles s)).

(** Modelled from the spec: joining the coordination group gives a fresh
    handle that is allocating; the release handshake allocates anew;
    [finish] settles. *)
Definition SetPartitioner (path : string) (set : gset Z) (time_boundary : Z)
    (s : state) : handle * state :=
  (handles s,
   mkState (clock s) (pace s) (txns s) (events s) (bucket_of s) (script s)
           Allocating (owned s) (S (handles s))).

Definition release_set (h : handle) (s : state) : result unit * state :=
  (Ok tt,
   mkState (clock s) (pace s) (txns s) (events s) (bucket_of s) (script s)
           Allocating (owned s) (handles s)).

Definition finish (h : handle) (s : state) : result unit * state :=
  (Ok tt, s).

#[global] Instance env : Env state := {
  env_utcnow := utcnow;
  env_generate_transaction_id := generate_transaction_id;
  env_croniter_get_next := Cron.get_next;
  env_fetch_and_delete := fetch_and_delete;
  env_add_cron_events := add_cron_events;
  env_modify_state := modify_state;
  env_SetPartitioner := SetPartitioner;
  env_state := λ _ s, partition s;
  env_owned := λ _ s, owned s;
  env_release_set := release_set;
  env_finish := finish
}.

(** A store with the given table and script, at the given time, whose
    service has joined and holds every bucket. *)
Definition init (now : Z) (table : list (Z * Event))
    (outcomes : list (result unit)) (st : PartitionState) : World state :=
  mkWorld (mkState now 1 0 table (λ _, 0%Z) outcomes st [0%Z] 1)
          [] (Some 0) true [] [].

End MemStore.

(** ** Reading the record of calls *)

(** The fetches of a record, each with its arguments and what it returned. *)
Definition fetch_of (c : call) : option (Z * Z * Z * result (list Event)) :=
  match c with
  | CFetchAndDelete b n k r => Some (b, n, k, r)
  | _ => None
  end.

(** An event as the executor identifies it to the group. *)
Definition key (e : Event) : string * string * string * string :=
  (tenantId e, groupId e, policyId e, version e).

(** The executions of a record, in order. *)
Definition visit_of (c : call) : option (string * string * string * string) :=
  match c with
  | CModifyState t g _ p v _ => Some (t, g, p, v)
  | _ => None
  end.

Definition visits (cs : list call) : list (string * string * string * string) :=
  omap visit_of cs.

Definition fetches (cs : list call) : list (Z * Z * Z * result (list Event)) :=
  omap fetch_of cs.

(** The bulk inserts of a record. *)
Definition insert_of (c : call) : option (list Event) :=
  match c with
  | CAddCronEvents l _ => Some l
  | _ => None
  end.

Definition inserts (cs : list call) : list (list Event) := omap insert_of cs.

(** The events of a bucket that a fetch at [now] may still return, in table
    order. *)
Definition pending (bucket now : Z) (table : list (Z * Event)) : list Event :=
  omap (λ be, if MemStore.due bucket now be then Some be.2 else None) table.

(** What a drain of bucket [b] at [now] relies on: the clock has reached
    [now], and the due events of the bucket are [D]. *)
Definition steady (b now : Z) (D : list Event) (s : MemStore.state) : Prop :=
  (now ≤ MemStore.clock s)%Z ∧ pending b now (MemStore.events s) = D.

(** ** Sample data *)
Module Sample.

Definition hourly : Event := mkEvent "t1" "g1" "p1" 50 (Some "0 * * * *") "v1".
Definition again : Event := mkEvent "t1" "g1" "p1" 60 None "v2".
Definition once : Event := mkEvent "t1" "g2" "p2" 70 None "v1".
Definition garbled : Event := mkEvent "t1" "g3" "p3" 80 (Some "every hour") "v1".

Definition service : SchedulerService := mkService 10 [0; 1]%Z "/scheduler".

(** Three one-shot events are due in bucket 0. *)
Definition three_due : World MemStore.state :=
  MemStore.init 100 [(0, again); (0, once); (1, once); (0, again)]%Z []
                Allocated.

(** Two events of one policy: the first is refused, then the policy is gone. *)
Definition refused_then_gone : World MemStore.state :=
  MemStore.init 100 []
    [Failed CannotExecutePolicyError; Failed NoSuchPolicyError] Allocated.

Definition refused : World MemStore.state :=
  MemStore.init 100 [] [Failed CannotExecutePolicyError] Allocated.

Definition broken : World MemStore.state :=
  MemStore.init 100 [] [Failed (OtherError "connection lost")] Allocated.

Definition releasing : World MemStore.state :=
  MemStore.init 100 [(0, once)]%Z [] Release.

Definition new_year : World MemStore.state :=
  MemStore.init (Cron.utc 2021 1 1 10 15 0) [] [] Allocated.

Definition two_garbled : World MemStore.state :=
  MemStore.init 100 [(0, garbled); (0, garbled)]%Z [] Allocated.

End Sample.

(** The calls that go to the store and to the groups it hands out. *)
Definition store_call (c : call) : Prop :=
  match c with
  | CFetchAndDelete _ _ _ _ | CAddCronEvents _ _
  | CGetScalingGroup _ _ | CModifyState _ _ _ _ _ _ => True
  | _ => False
  end.

(** The arguments of a recorded fetch. *)
Definition fetch_args (f : Z * Z * Z * result (list Event)) : Z * Z * Z := f.1.

(** ** The store during an outage *)

(** Modelled from the spec: the collaborators of [MemStore] while the store
    cannot be reached; its fetch and its bulk insert fail, everything else
    is as before. *)
Module Outage.

Definition lost : exn := OtherError "connection lost".

Definition env : Env MemStore.state := {|
  env_utcnow := MemStore.utcnow;
  env_generate_transaction_id := MemStore.generate_transaction_id;
  env_croniter_get_next := Cron.get_next;
  env_fetch_and_delete := λ _ _ _ s, (Failed lost, s);
  env_add_cron_events := λ _ s, (Failed lost, s);
  env_modify_state := MemStore.modify_state;
  env_SetPartitioner := MemStore.SetPartitioner;
  env_state := λ _ s, MemStore.partition s;
  env_owned := λ _ s, MemStore.owned s;
  env_release_set := MemStore.release_set;
  env_finish := MemStore.finish
|}.

End Outage.

(** The world a fuelled run ends in ([w] itself when the fuel ran out). *)
Definition world_after {St A : Type} (run : option (result A * World St))
    (w : World St) : World St :=
  match run with
  | Some (_, w') => w'
  | None => w
  end.

(** ** More sample data *)
Module Run.


(** The coordination session was lost. *)
Definition failed_session : World MemStore.state :=
  MemStore.init 100 [(0, Sample.once)]%Z [] Failure.

(** Bucket 0 of [Sample.three_due], drained in batches of two. *)
Definition drained : World MemStore.state :=
  world_after (check_events_in_bucket 5 0 100 2 Sample.three_due)
              Sample.three_due.


End Run.

(** * Properties *)

Section SetObjects.

Lemma grow_empty (ref : nat) (l : list (gset string)) : grow ref ∅ l = l.
Proof. unfold grow. apply list_alter_id. intros x. apply union_empty_r_L. Qed.

Lemma grow_grow (ref : nat) (A B : gset string) (l : list (gset string)) :
  grow ref B (grow ref A l) = grow ref (A ∪ B) l.
Proof.
  unfold grow. rewrite list_alter_alter_eq.
  apply list_alter_ext; [|done]. intros x _. simpl. by rewrite (assoc_L (∪)).
Qed.

End SetObjects.

Section ExecutorFacts.
Context {St : Type} {E : Env St}.

Lemma outcomes_length (events : list Event) (s : St) :
  length (outcomes events s).1 = length events.
Proof.
  revert s. induction events as [|e es IH]; intros s; simpl; [done|].
  destruct (outcome e s) as [o s1].
  specialize (IH s1). destruct (outcomes es s1) as [os s2]. simpl in *. lia.
Qed.

(** One event, run to its settled deferred: the deferred always fires. *)
Lemma execute_event_run (e : Event) (ref : nat) (w : World St) :
  execute_event e ref w =
  let o := (outcome e (ext w)).1 in
  (Ok tt,
   mkWorld (outcome e (ext w)).2
           (grow ref (event_tombstone e o) (sets w))
           (kz_partition w) (running w)
           (logs w ++ event_logs e o)
           (calls w ++ event_calls e o)).
Proof.
  destruct w as [s ss kz rn lg cl].
  unfold execute_event, bind, log_msg, emit_log, store_get_scaling_group,
    emit_call, generate_transaction_id, with_ext, ret, addErrback,
    group_modify_state, settle, outcome. simpl.
  destruct (env_generate_transaction_id s) as [txn s1]. simpl.
  destruct (env_modify_state _ _ _ _ _ s1) as [r s2]. simpl.
  destruct r as [[]|f]; simpl.
  - unfold event_tombstone; simpl. rewrite grow_empty, <- !app_assoc. done.
  - destruct f; unfold ignore_and_log, collect_deleted_policy, trap, bind,
      raise, ret, log_msg, log_err, emit_log, set_add, event_tombstone,
      event_logs; simpl;
      rewrite ?grow_empty, <- ?app_assoc; simpl; done.
Qed.

(** The list comprehension over a batch. *)
Lemma comprehension_execute_run (events : list Event) (ref : nat) (w : World St) :
  comprehension (λ event, execute_event event ref) events w =
  let os := (outcomes events (ext w)).1 in
  (Ok (replicate (length events) (Ok tt)),
   mkWorld (outcomes events (ext w)).2
           (grow ref (tombstones events os) (sets w))
           (kz_partition w) (running w)
           (logs w ++ batch_logs events os)
           (calls w ++ batch_calls events os)).
Proof.
  revert w. induction events as [|e es IH]; intros w.
  - destruct w. simpl. unfold ret. rewrite grow_empty, !app_nil_r. done.
  - simpl. unfold bind, capture. rewrite execute_event_run. cbn beta iota zeta.
    rewrite IH. unfold ret. cbn [ext sets kz_partition running logs calls].
    destruct (outcome e (ext w)) as [o s1]. simpl.
    destruct (outcomes es s1) as [os s2]. simpl.
    rewrite grow_grow, <- !app_assoc. done.
Qed.

Lemma gather_from_fired {A} (a : A) (n index : nat) :
  gather_from index (replicate n (Ok a)) = Ok (replicate n a).
Proof.
  revert index. induction n as [|n IH]; intros index; simpl; [done|].
  by rewrite IH.
Qed.

End ExecutorFacts.

Section ReschedulerFacts.
Context {St : Type} {E : Env St}.

Lemma next_cron_occurrence_run (c : string) (w : World St) :
  next_cron_occurrence c w =
  (env_croniter_get_next c (env_utcnow (ext w)).1,
   mkWorld (env_utcnow (ext w)).2 (sets w) (kz_partition w) (running w)
           (logs w) (calls w)).
Proof.
  unfold next_cron_occurrence, bind, utcnow, with_ext.
  destruct (env_utcnow (ext w)) as [start s]. simpl.
  destruct (env_croniter_get_next c start); done.
Qed.

Lemma next_cron_occurrence_frame (c : string) (w : World St) :
  let w' := (next_cron_occurrence c w).2 in
  sets w' = sets w ∧ calls w' = calls w ∧ logs w' = logs w ∧
  kz_partition w' = kz_partition w ∧ running w' = running w.
Proof. rewrite next_cron_occurrence_run. done. Qed.

Lemma cron_loop_frame (events : list Event) (deleted : gset string)
    (acc : list Event) (w : World St) :
  let w' := (cron_loop events deleted acc w).2 in
  sets w' = sets w ∧ calls w' = calls w ∧ logs w' = logs w ∧
  kz_partition w' = kz_partition w ∧ running w' = running w.
Proof.
  revert acc w. induction events as [|e es IH]; intros acc w; simpl; [done|].
  destruct (truthy (cron e) && negb (bool_decide (policyId e ∈ deleted))).
  - unfold bind.
    pose proof (next_cron_occurrence_frame (default "" (cron e)) w) as Hn.
    destruct (next_cron_occurrence (default "" (cron e)) w) as [[t|f] w1];
      simpl in Hn; [|exact Hn].
    specialize (IH (acc ++ [set_trigger e t]) w1). simpl in IH.
    destruct Hn as (<- & <- & <- & <- & <-). exact IH.
  - apply IH.
Qed.

Lemma cron_loop_ext (P : St → Prop) (events : list Event)
    (deleted : gset string) (acc : list Event) (w : World St) :
  (∀ s, P s → P (env_utcnow s).2) →
  P (ext w) → P (ext (cron_loop events deleted acc w).2).
Proof.
  intros HP. revert acc w. induction events as [|e es IH]; intros acc w Hw;
    simpl; [done|].
  destruct (truthy (cron e) && negb (bool_decide (policyId e ∈ deleted)));
    [|by apply IH].
  unfold bind. rewrite next_cron_occurrence_run.
  specialize (HP _ Hw) as Hs.
  destruct (env_croniter_get_next _ _); simpl; [|done].
  by apply IH.
Qed.

Lemma cron_loop_fired (P : St → Prop) (events : list Event)
    (deleted : gset string) (acc l : list Event) (w w' : World St) :
  (∀ s, P s → P (env_utcnow s).2) →
  P (ext w) →
  cron_loop events deleted acc w = (Ok l, w') →
  ∃ l', l = acc ++ l' ∧ Forall2 (rescheduled P) (survivors deleted events) l'.
Proof.
  intros HP. revert acc w. induction events as [|e es IH]; intros acc w Hw;
    simpl.
  - unfold ret. intros [= <- <-]. exists []. rewrite app_nil_r. split; [done|].
    constructor.
  - unfold survivors.
    assert (Hsv : survives deleted e
                  = truthy (cron e) && negb (bool_decide (policyId e ∈ deleted)))
      by reflexivity.
    destruct (truthy (cron e) && negb (bool_decide (policyId e ∈ deleted))).
    + rewrite filter_cons_True by (by rewrite Hsv).
      unfold bind. rewrite next_cron_occurrence_run.
      specialize (HP _ Hw) as Hs.
      destruct (env_croniter_get_next _ _) as [t|f] eqn:Hcron; simpl; [|done].
      intros Hrun. apply IH in Hrun as (l' & -> & Hl'); [|done].
      exists (set_trigger e t :: l'). rewrite <- app_assoc. split; [done|].
      constructor; [|exact Hl']. split; [reflexivity|].
      exists (ext w). done.
    + rewrite filter_cons_False by (rewrite Hsv; intros []).
      intros Hrun. apply IH in Hrun as (l' & -> & Hl'); [|done].
      exists l'. done.
Qed.

Lemma cron_loop_no_survivor (events : list Event) (deleted : gset string)
    (acc : list Event) (w : World St) :
  survivors deleted events = [] →
  cron_loop events deleted acc w = (Ok acc, w).
Proof.
  revert acc. induction events as [|e es IH]; intros acc; simpl; [done|].
  unfold survivors. rewrite filter_cons.
  assert (Hsv : survives deleted e
                = truthy (cron e) && negb (bool_decide (policyId e ∈ deleted)))
    by reflexivity.
  destruct (truthy (cron e) && negb (bool_decide (policyId e ∈ deleted))).
  - destruct (decide _) as [_|Hn]; [done|]. destruct Hn. by rewrite Hsv.
  - destruct (decide _) as [Hy|_]; [by rewrite Hsv in Hy|]. apply IH.
Qed.

(** The loop raises only what croniter raised on a surviving event. *)
Lemma cron_loop_failed (P : St → Prop) (events : list Event)
    (deleted : gset string) (acc : list Event) (w w' : World St) (f : exn) :
  (∀ s, P s → P (env_utcnow s).2) →
  P (ext w) →
  cron_loop events deleted acc w = (Failed f, w') →
  ∃ e s, e ∈ survivors deleted events ∧ P s ∧
    env_croniter_get_next (default "" (cron e)) (env_utcnow s).1 = Failed f.
Proof.
  intros HP. revert acc w. induction events as [|e es IH]; intros acc w Hw;
    simpl; [done|].
  unfold survivors.
  assert (Hsv : survives deleted e
                = truthy (cron e) && negb (bool_decide (policyId e ∈ deleted)))
    by reflexivity.
  destruct (truthy (cron e) && negb (bool_decide (policyId e ∈ deleted))).
  - rewrite filter_cons_True by (by rewrite Hsv).
    unfold bind. rewrite next_cron_occurrence_run.
    specialize (HP _ Hw) as Hs.
    destruct (env_croniter_get_next _ _) as [t|f'] eqn:Hcron; simpl.
    + intros Hrun. apply IH in Hrun as (e0 & s & He0 & Hs0 & Hf); [|done].
      exists e0, s. split; [by apply list_elem_of_further|done].
    + intros [= -> <-]. exists e, (ext w). split; [apply list_elem_of_here|].
      done.
  - rewrite filter_cons_False by (rewrite Hsv; intros []).
    intros Hrun. apply IH in Hrun; done.
Qed.

(** The rescheduler on a batch with at least one event: either every next
    occurrence was computed and the survivors went to the store in one bulk
    insert, or croniter raised and the store was not called. *)
Lemma add_cron_events_inv (P : St → Prop) (events : list Event) (ref : nat)
    (w w' : World St) (r : result unit) :
  (∀ s, P s → P (env_utcnow s).2) →
  P (ext w) →
  events ≠ [] →
  add_cron_events events ref w = (r, w') →
  sets w' = sets w ∧ kz_partition w' = kz_partition w ∧
  running w' = running w ∧
  ((∃ l, Forall2 (rescheduled P)
           (survivors (default ∅ (sets w !! ref)) events) l ∧
         calls w' = calls w ++ [CAddCronEvents l r] ∧
         logs w' = logs w ++ [LogMsg "Adding {new_cron_events} cron events"])
   ∨ (∃ f e s, r = Failed f ∧ calls w' = calls w ∧ logs w' = logs w ∧
        e ∈ survivors (default ∅ (sets w !! ref)) events ∧ P s ∧
        env_croniter_get_next (default "" (cron e)) (env_utcnow s).1
        = Failed f)).
Proof.
  intros HP Hw Hne. unfold add_cron_events. destruct events as [|e es]; [done|].
  unfold bind at 1. unfold set_read.
  set (deleted := default ∅ (sets w !! ref)).
  unfold bind at 1.
  pose proof (cron_loop_frame (e :: es) deleted [] w) as Hf.
  destruct (cron_loop (e :: es) deleted [] w) as [[l|f] w1] eqn:Hloop;
    simpl in Hf; destruct Hf as (Hs & Hc & Hl & Hk & Hr).
  - apply (cron_loop_fired P) in Hloop as (l' & -> & Hl'); [|done..]. simpl.
    unfold bind, log_msg, emit_log, store_add_cron_events, settle. simpl.
    destruct (env_add_cron_events l' (ext w1)) as [r' s']. intros [= <- <-].
    simpl. repeat split; try done. left. exists l'. rewrite Hc, Hl. done.
  - apply (cron_loop_failed P) in Hloop as (e0 & s0 & He0 & Hs0 & Hf0);
      [|done..].
    intros [= <- <-]. repeat split; try done. right. by exists f, e0, s0.
Qed.

Lemma retriggered_fields (e e' : Event) :
  retriggered e e' →
  tenantId e' = tenantId e ∧ groupId e' = groupId e ∧
  policyId e' = policyId e ∧ cron e' = cron e ∧ version e' = version e.
Proof. intros ->. done. Qed.

(** Every submitted event is a survivor with a new trigger. *)
Lemma rescheduled_origin (P : St → Prop) (deleted : gset string)
    (events l : list Event) (e' : Event) :
  Forall2 (rescheduled P) (survivors deleted events) l →
  e' ∈ l →
  ∃ e, e ∈ events ∧ survives deleted e = true ∧ rescheduled P e e'.
Proof.
  intros HF Hin. apply list_elem_of_lookup in Hin as [i Hi].
  destruct (Forall2_lookup_r _ _ _ _ _ HF Hi) as (e & He & Hr).
  apply list_elem_of_lookup_2 in He. apply list_elem_of_filter in He as [Hs He].
  exists e. split; [done|]. split; [|done]. by apply Is_true_true.
Qed.

(** Every survivor is submitted with a new trigger. *)
Lemma rescheduled_image (P : St → Prop) (deleted : gset string)
    (events l : list Event) (e : Event) :
  Forall2 (rescheduled P) (survivors deleted events) l →
  e ∈ events → survives deleted e = true →
  ∃ e', e' ∈ l ∧ rescheduled P e e'.
Proof.
  intros HF Hin Hs.
  assert (He : e ∈ survivors deleted events).
  { apply list_elem_of_filter. split; [by apply Is_true_true | done]. }
  apply list_elem_of_lookup in He as [i Hi].
  destruct (Forall2_lookup_l _ _ _ _ _ HF Hi) as (e' & He' & Hr).
  exists e'. split; [|done]. by eapply list_elem_of_lookup_2.
Qed.

End ReschedulerFacts.

Section BatchFacts.
Context {St : Type} {E : Env St}.

Lemma grow_fresh (T : gset string) (l : list (gset string)) :
  grow (length l) T (l ++ [∅]) = l ++ [T].
Proof.
  unfold grow. rewrite <- (Nat.add_0_r (length l)), alter_app_r. simpl.
  by rewrite union_empty_l_L.
Qed.

(** A batch with at least one event: the executions all settle, the gathered
    deferred fires, and the rescheduler runs on the settled world with the
    set object the executions shared; what it returns decides the batch. *)
Lemma process_events_run (events : list Event) (w : World St) :
  events ≠ [] →
  process_events events w =
  match add_cron_events events (length (sets w)) (settled events w) with
  | (Ok _, w2) => (Ok (Z.of_nat (length events)), w2)
  | (Failed f, w2) => (Failed f, w2)
  end.
Proof.
  intros Hne. unfold process_events. destruct events as [|e es]; [done|].
  set (events := e :: es).
  unfold bind at 1. unfold log_msg, emit_log. cbn beta iota.
  unfold bind at 1. unfold new_set. cbn beta iota.
  unfold bind at 1. rewrite comprehension_execute_run.
  cbn beta iota zeta. cbn [ext sets kz_partition running logs calls].
  unfold addCallback, bind, gatherResults. rewrite gather_from_fired.
  rewrite grow_fresh, <- app_assoc. simpl ([_] ++ _).
  unfold settled. cbv zeta.
  destruct (add_cron_events events _ _) as [[[]|f] w2]; done.
Qed.

Lemma settled_tombstones (events : list Event) (w : World St) :
  default ∅ (sets (settled events w) !! length (sets w))
  = tombstones events (outcomes events (ext w)).1.
Proof.
  unfold settled. cbv zeta. cbn [sets].
  by rewrite list_lookup_middle.
Qed.

(** What a batch adds to the record of collaborator calls: the executions in
    batch order, then at most one bulk insert. *)
Lemma process_events_calls (P : St → Prop) (events : list Event) (w : World St) :
  (∀ s, P s → P (env_utcnow s).2) →
  P (outcomes events (ext w)).2 →
  let os := (outcomes events (ext w)).1 in
  let r := (process_events events w).1 in
  let w' := (process_events events w).2 in
  (events = [] ∧ w' = w ∧ r = Ok 0%Z) ∨
  (events ≠ [] ∧
   sets w' = sets w ++ [tombstones events os] ∧
   ((∃ l ra,
       Forall2 (rescheduled P) (survivors (tombstones events os) events) l ∧
       calls w' = calls w ++ batch_calls events os ++ [CAddCronEvents l ra] ∧
       r = match ra with
           | Ok _ => Ok (Z.of_nat (length events))
           | Failed f => Failed f
           end)
    ∨ (∃ f e s, r = Failed f ∧ calls w' = calls w ++ batch_calls events os ∧
         e ∈ survivors (tombstones events os) events ∧ P s ∧
         env_croniter_get_next (default "" (cron e)) (env_utcnow s).1
         = Failed f))).
Proof.
  intros HP Hext os r w'. destruct (decide (events = [])) as [->|Hne].
  { left. done. }
  right. split; [done|]. subst r w'. rewrite process_events_run by done.
  destruct (add_cron_events events _ _) as [ra w2] eqn:Hadd.
  apply (add_cron_events_inv P) in Hadd as (Hs & _ & _ & Hcases);
    [|done|exact Hext|done].
  rewrite settled_tombstones in Hcases. fold os in Hcases.
  assert (Hsets : sets w2 = sets w ++ [tombstones events os]) by by rewrite Hs.
  destruct Hcases as [(l & Hl & Hc & _)|(f & e0 & s0 & -> & Hc & _ & Hrest)].
  - destruct ra as [[]|f]; simpl; (split; [done|]); left; exists l;
      eexists; (split; [done|]); rewrite Hc; unfold settled; simpl;
      rewrite <- app_assoc; done.
  - simpl. split; [done|]. right. exists f, e0, s0. by rewrite Hc.
Qed.

(** An invariant of the collaborators' state that every collaborator call
    of a batch preserves holds after the batch. *)
Lemma outcomes_ext (P : St → Prop) (events : list Event) (s : St) :
  (∀ s, P s → P (env_generate_transaction_id s).2) →
  (∀ t g x p v s, P s → P (env_modify_state t g x p v s).2) →
  P s → P (outcomes events s).2.
Proof.
  intros Hgen Hmod. revert s. induction events as [|e es IH]; intros s Hs;
    simpl; [done|].
  unfold outcome. specialize (Hgen _ Hs).
  destruct (env_generate_transaction_id s) as [txn s1]. simpl in Hgen.
  specialize (Hmod (tenantId e) (groupId e) txn (policyId e) (version e) _ Hgen).
  destruct (env_modify_state _ _ _ _ _ s1) as [r s2]. simpl in Hmod.
  specialize (IH _ Hmod). by destruct (outcomes es s2).
Qed.

Lemma add_cron_events_ext (P : St → Prop) (events : list Event) (ref : nat)
    (w : World St) :
  (∀ s, P s → P (env_utcnow s).2) →
  (∀ l s, P s →
     Forall (λ e', ∃ c s0, P s0 ∧
               env_croniter_get_next c (env_utcnow s0).1 = Ok (trigger e')) l →
     P (env_add_cron_events l s).2) →
  P (ext w) → P (ext (add_cron_events events ref w).2).
Proof.
  intros Hnow Hadd Hw. unfold add_cron_events.
  destruct events as [|e es]; [done|].
  unfold bind at 1. unfold set_read.
  set (deleted := default ∅ (sets w !! ref)).
  unfold bind at 1.
  pose proof (cron_loop_ext P (e :: es) deleted [] w Hnow Hw) as Hext.
  destruct (cron_loop (e :: es) deleted [] w) as [[l|f] w1] eqn:Hloop;
    simpl in Hext; [|done].
  apply (cron_loop_fired P) in Hloop as (l' & -> & Hl'); [|done..]. simpl.
  unfold bind, log_msg, emit_log, store_add_cron_events, settle. simpl.
  assert (HF : Forall (λ e', ∃ c s0, P s0 ∧
               env_croniter_get_next c (env_utcnow s0).1 = Ok (trigger e')) l').
  { apply Forall_forall. intros e' He'.
    apply list_elem_of_lookup in He' as [i Hi].
    destruct (Forall2_lookup_r _ _ _ _ _ Hl' Hi)
      as (e0 & _ & _ & s0 & Hs0 & Hc).
    by exists (default "" (cron e0)), s0. }
  specialize (Hadd l' (ext w1) Hext HF).
  by destruct (env_add_cron_events l' (ext w1)).
Qed.

Lemma process_events_ext (P : St → Prop) (events : list Event) (w : World St) :
  (∀ s, P s → P (env_utcnow s).2) →
  (∀ s, P s → P (env_generate_transaction_id s).2) →
  (∀ t g x p v s, P s → P (env_modify_state t g x p v s).2) →
  (∀ l s, P s →
     Forall (λ e', ∃ c s0, P s0 ∧
               env_croniter_get_next c (env_utcnow s0).1 = Ok (trigger e')) l →
     P (env_add_cron_events l s).2) →
  P (ext w) → P (ext (process_events events w).2).
Proof.
  intros Hnow Hgen Hmod Hadd Hw.
  destruct (decide (events = [])) as [->|Hne]; [done|].
  rewrite process_events_run by done.
  pose proof (add_cron_events_ext P events (length (sets w)) (settled events w)
                Hnow Hadd) as Hext.
  destruct (add_cron_events events _ _) as [[[]|f] w2]; simpl in *;
    apply Hext; unfold settled; simpl; by apply outcomes_ext.
Qed.

End BatchFacts.

Section RecordFacts.

Lemma batch_calls_no_insert (events : list Event)
    (os : list (string * result unit)) (l : list Event) (r : result unit) :
  CAddCronEvents l r ∉ batch_calls events os.
Proof.
  revert os. induction events as [|e es IH]; intros [|o os]; simpl;
    try apply not_elem_of_nil.
  rewrite !not_elem_of_cons. repeat split; first [done | apply IH].
Qed.

Lemma batch_calls_no_fetch (events : list Event)
    (os : list (string * result unit)) :
  fetches (batch_calls events os) = [].
Proof.
  revert os. induction events as [|e es IH]; intros [|o os]; simpl;
    first [done | apply IH].
Qed.

Lemma visits_batch_calls (events : list Event)
    (os : list (string * result unit)) :
  length os = length events →
  visits (batch_calls events os) = map key events.
Proof.
  revert os. induction events as [|e es IH]; intros [|o os]; simpl; try done.
  intros [= Hlen]. unfold visits in *. simpl. by rewrite IH.
Qed.

Lemma tombstones_intro (events : list Event)
    (os : list (string * result unit)) (i : nat) (e : Event)
    (o : string * result unit) :
  events !! i = Some e → os !! i = Some o → tombstoning o.2 = true →
  policyId e ∈ tombstones events os.
Proof.
  revert os i. induction events as [|e0 es IH]; intros [|o0 os] [|i]; simpl;
    try done.
  - intros [= ->] [= ->] Ht. unfold event_tombstone. rewrite Ht. set_solver.
  - intros He Ho Ht. apply elem_of_union_r. by eapply IH.
Qed.

Lemma tombstones_elim (events : list Event)
    (os : list (string * result unit)) (p : string) :
  p ∈ tombstones events os →
  ∃ i e o, events !! i = Some e ∧ os !! i = Some o ∧ policyId e = p ∧
           tombstoning o.2 = true.
Proof.
  revert os. induction events as [|e0 es IH]; intros [|o0 os]; simpl;
    try (intros Hp; by apply not_elem_of_empty in Hp).
  intros [Hp|Hp]%elem_of_union.
  - unfold event_tombstone in Hp. destruct (tombstoning o0.2) eqn:Ht.
    + apply elem_of_singleton in Hp as ->. by exists 0, e0, o0.
    + by apply not_elem_of_empty in Hp.
  - apply IH in Hp as (i & e & o & He & Ho & Hp & Ht). by exists (S i), e, o.
Qed.

Lemma batch_logs_intro (events : list Event)
    (os : list (string * result unit)) (i : nat) (e : Event)
    (o : string * result unit) (l : log_entry) :
  events !! i = Some e → os !! i = Some o → l ∈ event_logs e o →
  l ∈ batch_logs events os.
Proof.
  revert os i. induction events as [|e0 es IH]; intros [|o0 os] [|i] He Ho Hl;
    simpl in He, Ho; try done;
    change (l ∈ event_logs e0 o0 ++ batch_logs es os); apply elem_of_app.
  - left. congruence.
  - right. by eapply IH.
Qed.

Lemma survives_true (deleted : gset string) (e : Event) :
  survives deleted e = true ↔ truthy (cron e) = true ∧ policyId e ∉ deleted.
Proof.
  unfold survives. rewrite andb_true_iff, negb_true_iff, bool_decide_eq_false.
  done.
Qed.

Lemma survivors_nil (deleted : gset string) (events : list Event) :
  (∀ e, e ∈ events → truthy (cron e) = false ∨ policyId e ∈ deleted) →
  survivors deleted events = [].
Proof.
  intros Hall. unfold survivors.
  induction events as [|e es IH]; [done|].
  rewrite filter_cons_False.
  - apply IH. intros e0 He0. apply Hall. by apply list_elem_of_further.
  - intros Hs%Is_true_true%survives_true.
    destruct (Hall e (list_elem_of_here _ _)) as [Hc|Hp].
    + destruct Hs as [Hs _]. congruence.
    + by destruct Hs as [_ Hs].
Qed.

End RecordFacts.

Section BatchClaims.
Context {St : Type} {E : Env St}.

(** C7. The cron rescheduler never submits an event whose cron expression is
    empty to the store's bulk insert: what it records, for any batch and any
    tombstone set, is at most one bulk insert, every event in it has a
    non-empty expression, and none is a retriggered copy of a one-shot event
    of the batch.  On a batch of zero events neither the rescheduler nor the
    whole batch operation calls the store or changes anything. *)
Theorem C7_one_shot_events_never_recreated (events : list Event) (ref : nat)
    (w : World St) :
  let w' := (add_cron_events events ref w).2 in
  (∃ added,
     calls w' = calls w ++ added ∧
     ∀ c, c ∈ added →
       ∃ l r, added = [CAddCronEvents l r] ∧
         ∀ e', e' ∈ l →
           truthy (cron e') = true ∧
           ∀ e t, e ∈ events → truthy (cron e) = false → e' ≠ set_trigger e t)
  ∧ (events = [] →
     add_cron_events events ref w = (Ok tt, w) ∧
     process_events events w = (Ok 0%Z, w)).
Proof.
  intros w'. split; [|by intros ->].
  destruct (decide (events = [])) as [->|Hne].
  { exists []. rewrite app_nil_r. split; [done|]. intros c Hc.
    by apply not_elem_of_nil in Hc. }
  subst w'. destruct (add_cron_events events ref w) as [r w1] eqn:Hadd.
  apply (add_cron_events_inv (λ _, True)) in Hadd
    as (_ & _ & _ & [(l & Hl & Hc & _)|(f & e0 & s0 & _ & Hc & _)]);
    try done.
  - exists [CAddCronEvents l r]. split; [done|]. intros c _.
    exists l, r. split; [done|]. intros e' He'.
    destruct (rescheduled_origin _ _ _ _ _ Hl He')
      as (e & He & [Hcron _]%survives_true & [Hre _]).
    split; [by rewrite Hre|].
    intros e1 t _ Hone Heq. rewrite Heq in Hre.
    apply (f_equal cron) in Hre. simpl in Hre. congruence.
  - exists []. rewrite app_nil_r. split; [done|]. intros c Hin.
    by apply not_elem_of_nil in Hin.
Qed.

(** C8. Each event in the bulk insert comes, position by position, from a
    surviving event of the batch, with the same tenantId, groupId, policyId,
    cron and version; its trigger is what croniter answered for that
    expression at a reading of the clock. *)
Theorem C8_reschedule_changes_only_trigger (events : list Event) (ref : nat)
    (w : World St) :
  let w' := (add_cron_events events ref w).2 in
  let deleted := default ∅ (sets w !! ref) in
  ∃ added,
    calls w' = calls w ++ added ∧
    ∀ c, c ∈ added →
      ∃ l r, added = [CAddCronEvents l r] ∧
        Forall2 (λ e e',
            tenantId e' = tenantId e ∧ groupId e' = groupId e ∧
            policyId e' = policyId e ∧ cron e' = cron e ∧
            version e' = version e ∧
            e' = set_trigger e (trigger e') ∧
            ∃ s, env_croniter_get_next (default "" (cron e)) (env_utcnow s).1
                 = Ok (trigger e'))
          (survivors deleted events) l.
Proof.
  intros w' deleted.
  destruct (decide (events = [])) as [->|Hne].
  { exists []. rewrite app_nil_r. split; [done|]. intros c Hc.
    by apply not_elem_of_nil in Hc. }
  subst w'. destruct (add_cron_events events ref w) as [r w1] eqn:Hadd.
  apply (add_cron_events_inv (λ _, True)) in Hadd
    as (_ & _ & _ & [(l & Hl & Hc & _)|(f & e0 & s0 & _ & Hc & _)]);
    try done.
  - exists [CAddCronEvents l r]. split; [done|]. intros c _.
    exists l, r. split; [done|].
    eapply Forall2_impl; [exact Hl|]. intros e e' [Hre (s & _ & Hs)].
    destruct (retriggered_fields _ _ Hre) as (? & ? & ? & ? & ?).
    repeat split; try done. by exists s.
  - exists []. rewrite app_nil_r. split; [done|]. intros c Hin.
    by apply not_elem_of_nil in Hin.
Qed.

(** C10. On a batch that is not empty and in which no event survives (each
    has an empty cron expression or a tombstoned policyId), the rescheduler
    still calls the store's bulk insert, with the empty list; this holds for
    the rescheduler on any tombstone set and for the whole batch operation,
    whose record then ends with that call. *)
Theorem C10_bulk_insert_of_nothing (events : list Event) (w : World St) :
  events ≠ [] →
  (∀ ref,
     (∀ e, e ∈ events →
           truthy (cron e) = false ∨ policyId e ∈ default ∅ (sets w !! ref)) →
     ∃ r, calls (add_cron_events events ref w).2
          = calls w ++ [CAddCronEvents [] r])
  ∧ ((∀ e, e ∈ events →
           truthy (cron e) = false
           ∨ policyId e ∈ tombstones events (outcomes events (ext w)).1) →
     ∃ r, calls (process_events events w).2
          = calls w ++ batch_calls events (outcomes events (ext w)).1
                    ++ [CAddCronEvents [] r]).
Proof.
  intros Hne.
  assert (Hadd : ∀ ref (w0 : World St),
    survivors (default ∅ (sets w0 !! ref)) events = [] →
    ∃ r, calls (add_cron_events events ref w0).2
         = calls w0 ++ [CAddCronEvents [] r]).
  { intros ref w0 Hnone. unfold add_cron_events.
    destruct events as [|e es]; [done|].
    unfold bind at 1. unfold set_read. unfold bind at 1.
    rewrite cron_loop_no_survivor by done.
    unfold bind, log_msg, emit_log, store_add_cron_events, settle. simpl.
    destruct (env_add_cron_events [] (ext w0)) as [r s]. by exists r. }
  split.
  - intros ref Hall. apply Hadd. by apply survivors_nil.
  - intros Hall. rewrite process_events_run by done.
    destruct (Hadd (length (sets w)) (settled events w)) as [r Hr].
    { rewrite settled_tombstones. by apply survivors_nil. }
    exists r.
    destruct (add_cron_events events _ _) as [[[]|f] w2]; simpl in *;
      rewrite Hr; unfold settled; simpl; by rewrite <- app_assoc.
Qed.

End BatchClaims.

Section ExecutorClaims.
Context {St : Type} {E : Env St}.

Lemma tombstoning_spec (r : result unit) :
  tombstoning r = true ↔
  r = Failed NoSuchScalingGroupError ∨ r = Failed NoSuchPolicyError.
Proof.
  split.
  - destruct r as [|[]]; simpl; intros; try done; auto.
  - intros [->| ->]; done.
Qed.

Lemma unclassified_spec (f : exn) :
  type_of f ∉ [TCannotExecutePolicyError; TNoSuchScalingGroupError;
               TNoSuchPolicyError] →
  f ≠ CannotExecutePolicyError ∧ f ≠ NoSuchScalingGroupError ∧
  f ≠ NoSuchPolicyError.
Proof.
  intros Hty. repeat split; intros ->; apply Hty; simpl.
  - apply list_elem_of_here.
  - apply list_elem_of_further, list_elem_of_here.
  - do 2 apply list_elem_of_further. apply list_elem_of_here.
Qed.

(** C1. In a batch, every event gets its [modify_state] call, in batch
    order, whatever the other events did; an event whose call failed with
    NoSuchScalingGroupError or NoSuchPolicyError has its policyId in the set
    object the executions of the batch share; the bulk insert, when there is
    one, comes after all of them and holds no event whose policyId is in
    that set, wherever in the batch the failing event stood. *)
Theorem C1_tombstoned_policy_not_reinserted (events : list Event)
    (w : World St) :
  let os := (outcomes events (ext w)).1 in
  let w' := (process_events events w).2 in
  length os = length events ∧
  visits (batch_calls events os) = map key events ∧
  ∃ resched,
    calls w' = calls w ++ batch_calls events os ++ resched ∧
    (events ≠ [] → sets w' !! length (sets w) = Some (tombstones events os)) ∧
    (∀ i e o, events !! i = Some e → os !! i = Some o →
       o.2 = Failed NoSuchScalingGroupError ∨ o.2 = Failed NoSuchPolicyError →
       policyId e ∈ tombstones events os) ∧
    (∀ c, c ∈ resched →
       ∃ l r, resched = [CAddCronEvents l r] ∧
         ∀ e', e' ∈ l → policyId e' ∉ tombstones events os).
Proof.
  intros os w'.
  assert (Hlen : length os = length events) by apply outcomes_length.
  split; [done|]. split; [by apply visits_batch_calls|].
  assert (Hmem : ∀ i e o, events !! i = Some e → os !! i = Some o →
       o.2 = Failed NoSuchScalingGroupError ∨ o.2 = Failed NoSuchPolicyError →
       policyId e ∈ tombstones events os).
  { intros i e o He Ho Hf. eapply tombstones_intro; [done..|].
    by apply tombstoning_spec. }
  destruct (process_events_calls (λ _, True) events w) as
    [(-> & Hw & _)|(Hne & Hsets & Hcases)]; [done..| |].
  - exists []. subst w'. rewrite Hw. simpl. rewrite app_nil_r.
    repeat split; try done. intros c Hc. by apply not_elem_of_nil in Hc.
  - fold os in Hsets, Hcases. fold w' in Hsets, Hcases.
    destruct Hcases as [(l & ra & Hl & Hc & _)|(f & e0 & s0 & _ & Hc & _)].
    + exists [CAddCronEvents l ra]. repeat split; try done.
      * intros _. rewrite Hsets. by apply list_lookup_middle.
      * intros c _. exists l, ra. split; [done|]. intros e' He'.
        destruct (rescheduled_origin _ _ _ _ _ Hl He')
          as (e & _ & [_ Hp]%survives_true & [Hre _]).
        by rewrite Hre.
    + exists []. rewrite app_nil_r. repeat split; try done.
      * intros _. rewrite Hsets. by apply list_lookup_middle.
      * intros c Hin. by apply not_elem_of_nil in Hin.
Qed.

(** What the batch leaves in the log up to the rescheduling. *)
Lemma process_events_logs (events : list Event) (w : World St) :
  events ≠ [] →
  ∃ tail, logs (process_events events w).2
          = logs w ++ LogMsg "Processing {num_events} events"
                   :: batch_logs events (outcomes events (ext w)).1 ++ tail.
Proof.
  intros Hne. rewrite process_events_run by done.
  destruct (add_cron_events events _ _) as [ra w2] eqn:Hadd.
  apply (add_cron_events_inv (λ _, True)) in Hadd
    as (_ & _ & _ & [(l & _ & _ & Hl)|(f & e0 & s0 & -> & _ & Hl & _)]);
    try done.
  - eexists. destruct ra as [[]|f]; simpl; rewrite Hl; unfold settled; simpl;
      rewrite <- app_assoc; simpl; reflexivity.
  - exists []. simpl. rewrite Hl, app_nil_r. done.
Qed.

(** C6. An event of a batch whose [modify_state] failed with anything but
    the three classified errors: the failure is logged, it is not
    tombstoned by its own failure, and the deferred of [execute_event]
    fires all the same (for every event, set object and world); so every
    event of the batch has settled and been called, the gathered deferred
    fires, and the batch is what the rescheduler makes of the settled
    world. *)
Theorem C6_other_errors_are_absorbed (events : list Event) (w : World St)
    (i : nat) (e : Event) (o : string * result unit) (f : exn) :
  let os := (outcomes events (ext w)).1 in
  events !! i = Some e →
  os !! i = Some o →
  o.2 = Failed f →
  type_of f ∉ [TCannotExecutePolicyError; TNoSuchScalingGroupError;
               TNoSuchPolicyError] →
  LogErr (Some f) ("Scheduler failed to execute policy " +:+ policyId e)
    ∈ logs (process_events events w).2
  ∧ event_tombstone e o = ∅
  ∧ (∀ e0 ref w0, (execute_event e0 ref w0).1 = Ok tt)
  ∧ (∀ ref w0,
       (comprehension (λ event, execute_event event ref) events w0).1
       = Ok (replicate (length events) (Ok tt))
       ∧ gather_from 0 (replicate (length events) (Ok tt))
         = Ok (replicate (length events) tt))
  ∧ visits (batch_calls events os) = map key events
  ∧ (∃ resched,
       calls (process_events events w).2
       = calls w ++ batch_calls events os ++ resched)
  ∧ process_events events w
    = match add_cron_events events (length (sets w)) (settled events w) with
      | (Ok _, w2) => (Ok (Z.of_nat (length events)), w2)
      | (Failed f', w2) => (Failed f', w2)
      end.
Proof.
  intros os He Ho Hf Hty.
  apply unclassified_spec in Hty as (Hf1 & Hf2 & Hf3).
  assert (Hne : events ≠ []) by (intros ->; done).
  assert (Hlog : LogErr (Some f)
                   ("Scheduler failed to execute policy " +:+ policyId e)
                 ∈ event_logs e o).
  { unfold event_logs. rewrite Hf. apply list_elem_of_further.
    destruct f; try done; apply list_elem_of_here. }
  repeat split.
  - destruct (process_events_logs events w Hne) as [tail ->].
    apply elem_of_app. right. apply list_elem_of_further.
    apply elem_of_app. left. by eapply batch_logs_intro.
  - unfold event_tombstone. rewrite Hf.
    destruct f; done.
  - intros e0 ref w0. by rewrite execute_event_run.
  - by rewrite comprehension_execute_run.
  - apply gather_from_fired.
  - apply visits_batch_calls, outcomes_length.
  - destruct (process_events_calls (λ _, True) events w) as
      [(-> & _)|(_ & _ & [(l & ra & _ & Hc & _)|(f' & e0 & s0 & _ & Hc & _)])];
      [done..| | |]; [done| |].
    + by exists [CAddCronEvents l ra].
    + exists []. by rewrite app_nil_r.
  - by apply process_events_run.
Qed.

(** C5, amended. An event of a batch whose [modify_state] failed with
    CannotExecutePolicyError: the refusal is logged at info level, its own
    execution adds nothing to the shared set and its deferred fires; its
    policyId is in the set only when another event of the batch, with the
    same policyId, failed with NoSuchScalingGroupError or NoSuchPolicyError.
    If its cron expression is not empty and no event of the batch tombstoned
    its policyId, the batch either ends with a bulk insert that holds it,
    unchanged apart from the trigger croniter computed, or croniter raised
    on the expression of a surviving event and nothing was inserted. *)
Theorem C5_expected_refusal_keeps_schedule (events : list Event)
    (w : World St) (i : nat) (e : Event) (o : string * result unit) :
  let os := (outcomes events (ext w)).1 in
  let w' := (process_events events w).2 in
  events !! i = Some e →
  os !! i = Some o →
  o.2 = Failed CannotExecutePolicyError →
  LogMsg ("Scheduler cannot execute policy " +:+ policyId e) ∈ logs w'
  ∧ event_tombstone e o = ∅
  ∧ (∀ ref w0, (outcome e (ext w0)).1 = o →
       (execute_event e ref w0).1 = Ok tt ∧
       sets (execute_event e ref w0).2 = sets w0 ∧
       logs (execute_event e ref w0).2
       = logs w0 ++ [LogMsg ("Scheduler executing policy " +:+ policyId e);
                     LogMsg ("Scheduler cannot execute policy "
                             +:+ policyId e)])
  ∧ (policyId e ∈ tombstones events os →
     ∃ j e1 o1, j ≠ i ∧ events !! j = Some e1 ∧ os !! j = Some o1 ∧
       policyId e1 = policyId e ∧
       (o1.2 = Failed NoSuchScalingGroupError
        ∨ o1.2 = Failed NoSuchPolicyError))
  ∧ (truthy (cron e) = true →
     policyId e ∉ tombstones events os →
     (∃ l ra e',
        calls w' = calls w ++ batch_calls events os ++ [CAddCronEvents l ra] ∧
        e' ∈ l ∧ e' = set_trigger e (trigger e') ∧
        ∃ s, env_croniter_get_next (default "" (cron e)) (env_utcnow s).1
             = Ok (trigger e'))
     ∨ (∃ f e0 s,
          (process_events events w).1 = Failed f ∧
          calls w' = calls w ++ batch_calls events os ∧
          e0 ∈ survivors (tombstones events os) events ∧
          env_croniter_get_next (default "" (cron e0)) (env_utcnow s).1
          = Failed f)).
Proof.
  intros os w' He Ho Hf.
  assert (Hne : events ≠ []) by (intros ->; done).
  assert (Hnone : event_tombstone e o = ∅).
  { unfold event_tombstone. by rewrite Hf. }
  split; [|split; [done|split; [|split]]].
  - subst w'. destruct (process_events_logs events w Hne) as [tail ->].
    apply elem_of_app. right. apply list_elem_of_further.
    apply elem_of_app. left. eapply batch_logs_intro; [done..|].
    unfold event_logs. rewrite Hf. apply list_elem_of_further.
    apply list_elem_of_here.
  - intros ref w0 Ho0. rewrite execute_event_run. cbv zeta.
    cbn [fst snd sets logs]. rewrite Ho0, Hnone, grow_empty.
    unfold event_logs. by rewrite Hf.
  - intros (j & e1 & o1 & He1 & Ho1 & Hp1 & Ht1)%tombstones_elim.
    exists j, e1, o1. repeat split; try done; [|by apply tombstoning_spec].
    intros ->. rewrite Ho in Ho1. injection Ho1 as <-. by rewrite Hf in Ht1.
  - intros Hcron Hp.
    destruct (process_events_calls (λ _, True) events w) as
      [(-> & _)|(_ & _ & [(l & ra & Hl & Hc & _)|(f & e0 & s0 & Hr & Hc & He0 & _ & Hf0)])];
      [done..| | |]; [done| |].
    + left. fold os in Hl.
      destruct (rescheduled_image (λ _, True) (tombstones events os) events l e)
        as (e' & He' & Hre & s & _ & Hs); [done| |by apply survives_true|].
      { by eapply list_elem_of_lookup_2. }
      exists l, ra, e'. repeat split; try done. by exists s.
    + right. by exists f, e0, s0.
Qed.

End ExecutorClaims.

Section DrainFacts.
Context {St : Type} {E : Env St}.

Lemma log_err_run (f : exn) (why : string) (w : World St) :
  log_err f why w
  = (Ok tt, mkWorld (ext w) (sets w) (kz_partition w) (running w)
                    (logs w ++ [LogErr (Some f) why]) (calls w)).
Proof. reflexivity. Qed.

Lemma store_fetch_and_delete_run (bucket now batchsize : Z) (w : World St) :
  store_fetch_and_delete bucket now batchsize w
  = let r := (env_fetch_and_delete bucket now batchsize (ext w)).1 in
    (r, mkWorld (env_fetch_and_delete bucket now batchsize (ext w)).2
                (sets w) (kz_partition w) (running w) (logs w)
                (calls w ++ [CFetchAndDelete bucket now batchsize r])).
Proof.
  unfold store_fetch_and_delete, settle.
  by destruct (env_fetch_and_delete bucket now batchsize (ext w)).
Qed.

(** One turn of the loop, with the callback chain resolved, before anything
    is known about the nested loop. *)
Lemma _do_check_unfold (fuel : nat) (bucket now batchsize : Z) (w : World St) :
  _do_check (S fuel) bucket now batchsize w =
  match store_fetch_and_delete bucket now batchsize w with
  | (Failed f, w1) => Some (log_err f "" w1)
  | (Ok events, w1) =>
      match process_events events w1 with
      | (Failed f, w2) => Some (log_err f "" w2)
      | (Ok n, w2) =>
          if (n =? batchsize)%Z
          then match _do_check fuel bucket now batchsize w2 with
               | Some (Ok a, w3) => Some (Ok a, w3)
               | Some (Failed f, w3) => Some (log_err f "" w3)
               | None => None
               end
          else Some (Ok tt, w2)
      end
  end.
Proof.
  simpl. unfold addErrbackF, bindF, liftF, retF, ret.
  destruct (store_fetch_and_delete bucket now batchsize w) as [[events|f] w1];
    [|done].
  destruct (process_events events w1) as [[n|f] w2]; [|done].
  destruct (n =? batchsize)%Z; done.
Qed.

(** The deferred of a drain loop never fails: its last errback logs. *)
Lemma _do_check_fires (fuel : nat) (bucket now batchsize : Z)
    (w w' : World St) (r : result unit) :
  _do_check fuel bucket now batchsize w = Some (r, w') → r = Ok tt.
Proof.
  revert w w' r. induction fuel as [|fuel IH]; intros w w' r; [done|].
  rewrite _do_check_unfold.
  destruct (store_fetch_and_delete bucket now batchsize w) as [[events|f] w1].
  - destruct (process_events events w1) as [[n|f] w2].
    + destruct (n =? batchsize)%Z.
      * destruct (_do_check fuel bucket now batchsize w2)
          as [[[[]|f] w3]|] eqn:Hin; [| |done].
        -- by intros [= <- <-].
        -- by apply IH in Hin.
      * by intros [= <- <-].
    + rewrite log_err_run. by intros [= <- <-].
  - rewrite log_err_run. by intros [= <- <-].
Qed.

(** One turn of the loop: it polls again exactly when the fetch fired with
    a batch that was processed and counted [batchsize] events. *)
Lemma _do_check_step (fuel : nat) (bucket now batchsize : Z) (w : World St) :
  _do_check (S fuel) bucket now batchsize w =
  match store_fetch_and_delete bucket now batchsize w with
  | (Failed f, w1) => Some (log_err f "" w1)
  | (Ok events, w1) =>
      match process_events events w1 with
      | (Failed f, w2) => Some (log_err f "" w2)
      | (Ok n, w2) =>
          if (n =? batchsize)%Z
          then _do_check fuel bucket now batchsize w2
          else Some (Ok tt, w2)
      end
  end.
Proof.
  rewrite _do_check_unfold.
  destruct (store_fetch_and_delete bucket now batchsize w) as [[events|f] w1];
    [|done].
  destruct (process_events events w1) as [[n|f] w2]; [|done].
  destruct (n =? batchsize)%Z; [|done].
  destruct (_do_check fuel bucket now batchsize w2) as [[[[]|f] w3]|] eqn:Hin;
    try done.
  by apply _do_check_fires in Hin.
Qed.

(** What a processed batch counts. *)
Lemma process_events_count (events : list Event) (w w' : World St) (n : Z) :
  process_events events w = (Ok n, w') → n = Z.of_nat (length events).
Proof.
  destruct (decide (events = [])) as [->|Hne].
  - by intros [= <- _].
  - rewrite process_events_run by done.
    destruct (add_cron_events events _ _) as [[[]|f] w2]; [|done].
    by intros [= <- _].
Qed.

Lemma comprehensionF_fires (fuel : nat) (now batchsize : Z) (l : list Z)
    (w w' : World St) (r : result (list (result unit))) :
  comprehensionF (λ bucket, check_events_in_bucket fuel bucket now batchsize)
                 l w = Some (r, w') →
  r = Ok (replicate (length l) (Ok tt)).
Proof.
  revert w w' r. induction l as [|b l IH]; intros w w' r; simpl.
  - by intros [= <- _].
  - unfold bindF, captureF, check_events_in_bucket.
    destruct (_do_check fuel b now batchsize w) as [[r1 w1]|] eqn:H1; [|done].
    apply _do_check_fires in H1 as ->.
    destruct (comprehensionF _ l w1) as [[r2 w2]|] eqn:H2; [|done].
    apply IH in H2 as ->. by intros [= <- _].
Qed.

End DrainFacts.

Section ServiceClaims.
Context {St : Type} {E : Env St}.

Lemma fetches_snoc (cs : list call) (c : call) :
  fetch_of c = None → fetches (cs ++ [c]) = fetches cs.
Proof.
  intros Hc. unfold fetches. rewrite omap_app. simpl. rewrite Hc.
  apply app_nil_r.
Qed.

(** C9. Stopping a started service stops the timer first and then calls the
    partitioner's [finish]; what the caller gets back is the deferred of
    that [finish], and nothing else is touched. *)
Theorem C9_stop_finishes_the_partitioner (self : SchedulerService)
    (w : World St) (h : handle) :
  kz_partition w = Some h →
  let d := (env_finish h (ext w)).1 in
  stopService self w
  = (Ok d,
     mkWorld (env_finish h (ext w)).2 (sets w) (Some h) false (logs w)
             (calls w ++ [CTimerStop; CFinish h d])).
Proof.
  intros Hh d. subst d. destruct w as [s ss kz rn lg cl]. simpl in Hh. subst kz.
  unfold stopService, bind, emit_call, set_running, get_kz_partition, capture,
    partition_finish, settle. simpl.
  destruct (env_finish h s) as [d s']. simpl. by rewrite <- app_assoc.
Qed.

(** C3. A tick of a started service reads the partitioner's state and, in
    every state but [Allocated], returns without a fetch: it only logs when
    allocating; it only calls [release_set] (and hands its deferred to the
    timer) on release; it joins anew over the full bucket set when failed;
    it calls [finish] and then joins anew in any other state.  Whatever the
    state and the fuel, a tick that returns does not raise, and the deferred
    it gathers from the drain loops has fired. *)
Theorem C3_tick_polls_only_when_allocated (fuel : nat)
    (self : SchedulerService) (batchsize : Z) (w : World St) (h : handle) :
  kz_partition w = Some h →
  let st := env_state h (ext w) in
  let full : gset Z := list_to_set (buckets self) in
  let joined := env_SetPartitioner (zk_partition_path self) full 15 in
  (st = Allocating →
     check_events fuel self batchsize w
     = Some (Ok RetNone,
             mkWorld (ext w) (sets w) (Some h) (running w)
                     (logs w ++ [LogMsg "Partition allocating"]) (calls w)))
  ∧ (st = Release →
     let d := (env_release_set h (ext w)).1 in
     check_events fuel self batchsize w
     = Some (Ok (RetReleased d),
             mkWorld (env_release_set h (ext w)).2 (sets w) (Some h)
                     (running w)
                     (logs w ++ [LogMsg "Partition changed. Repartitioning"])
                     (calls w ++ [CReleaseSet h d])))
  ∧ (st = Failure →
     let h' := (joined (ext w)).1 in
     check_events fuel self batchsize w
     = Some (Ok RetNone,
             mkWorld (joined (ext w)).2 (sets w) (Some h') (running w)
                     (logs w ++ [LogMsg "Partition failed. Starting new"])
                     (calls w ++ [CSetPartitioner (zk_partition_path self)
                                                  full 15 h'])))
  ∧ (∀ name, st = Unknown name →
     let d := (env_finish h (ext w)).1 in
     let s1 := (env_finish h (ext w)).2 in
     let h' := (joined s1).1 in
     check_events fuel self batchsize w
     = Some (Ok RetNone,
             mkWorld (joined s1).2 (sets w) (Some h') (running w)
                     (logs w ++ [LogErr None
                        ("Unknown state " +:+ name
                         +:+ ". This cannot happen. Starting new")])
                     (calls w ++ [CFinish h d;
                                  CSetPartitioner (zk_partition_path self)
                                                  full 15 h'])))
  ∧ (∀ r w', check_events fuel self batchsize w = Some (r, w') →
       (fetches (calls w') ≠ fetches (calls w) → st = Allocated)
       ∧ ∃ v, r = Ok v ∧
           (st = Allocated →
            v = RetGathered
                  (Ok (replicate (length (env_owned h (ext w))) tt)))).
Proof.
  intros Hh st full joined. destruct w as [s ss kz rn lg cl]. simpl in Hh.
  subst kz. simpl in st. simpl.
  assert (Hshape : check_events fuel self batchsize (mkWorld s ss (Some h) rn lg cl)
    = match st with
      | Allocating =>
          Some (Ok RetNone,
                mkWorld s ss (Some h) rn
                        (lg ++ [LogMsg "Partition allocating"]) cl)
      | Release =>
          Some (Ok (RetReleased (env_release_set h s).1),
                mkWorld (env_release_set h s).2 ss (Some h) rn
                        (lg ++ [LogMsg "Partition changed. Repartitioning"])
                        (cl ++ [CReleaseSet h (env_release_set h s).1]))
      | Failure =>
          Some (Ok RetNone,
                mkWorld (joined s).2 ss (Some (joined s).1) rn
                        (lg ++ [LogMsg "Partition failed. Starting new"])
                        (cl ++ [CSetPartitioner (zk_partition_path self)
                                                full 15 (joined s).1]))
      | Unknown name =>
          Some (Ok RetNone,
                mkWorld (joined (env_finish h s).2).2 ss
                        (Some (joined (env_finish h s).2).1) rn
                        (lg ++ [LogErr None
                           ("Unknown state " +:+ name
                            +:+ ". This cannot happen. Starting new")])
                        (cl ++ [CFinish h (env_finish h s).1;
                                CSetPartitioner (zk_partition_path self)
                                  full 15 (joined (env_finish h s).2).1]))
      | Allocated =>
          check_events fuel self batchsize (mkWorld s ss (Some h) rn lg cl)
      end).
  { unfold check_events, bindF, liftF, get_kz_partition, read_ext. simpl.
    fold st. destruct st; simpl; try done.
    - unfold partition_release_set, settle, capture, retF, liftF, ret. simpl.
      by destruct (env_release_set h s).
    - unfold rejoin, kz_SetPartitioner, bind, with_ext, emit_call,
        set_kz_partition, retF, liftF, ret. simpl. fold full. fold joined.
      by destruct (joined s).
    - unfold rejoin, kz_SetPartitioner, bind, with_ext, emit_call,
        set_kz_partition, retF, liftF, ret, capture, partition_finish, settle.
      simpl. fold full. fold joined.
      destruct (env_finish h s) as [d s1]. simpl.
      destruct (joined s1). simpl. by rewrite <- app_assoc. }
  split; [intros Hst; by rewrite Hshape, Hst|].
  split; [intros Hst; by rewrite Hshape, Hst|].
  split; [intros Hst; by rewrite Hshape, Hst|].
  split; [intros name Hst; by rewrite Hshape, Hst|].
  intros r w' Hrun. destruct st eqn:Hst.
  - rewrite Hshape in Hrun. injection Hrun as <- <-. simpl.
    split; [done|]. by exists RetNone.
  - clear Hshape. split; [done|].
    revert Hrun. unfold check_events, bindF, liftF, get_kz_partition,
      read_ext. simpl. fold st. rewrite Hst. simpl.
    unfold utcnow, generate_transaction_id, with_ext, log_msg, emit_log. simpl.
    destruct (env_utcnow s) as [now s1]. simpl.
    destruct (env_generate_transaction_id s1) as [txn s2]. simpl.
    destruct (comprehensionF _ (env_owned h s) _) as [[rs w1]|] eqn:Hc;
      [|done].
    apply comprehensionF_fires in Hc as ->.
    unfold capture, gatherResults, retF, liftF, ret.
    rewrite gather_from_fired. intros [= <- <-]. eexists. split; [done|].
    done.
  - rewrite Hshape in Hrun. injection Hrun as <- <-. simpl.
    rewrite fetches_snoc by done. split; [done|]. by eexists.
  - rewrite Hshape in Hrun. injection Hrun as <- <-. simpl.
    rewrite fetches_snoc by done. split; [done|]. by eexists.
  - rewrite Hshape in Hrun. injection Hrun as <- <-. simpl.
    split; [|by eexists].
    replace (cl ++ [CFinish h (env_finish h s).1;
                    CSetPartitioner (zk_partition_path self) full 15
                      (joined (env_finish h s).2).1])
      with ((cl ++ [CFinish h (env_finish h s).1])
            ++ [CSetPartitioner (zk_partition_path self) full 15
                  (joined (env_finish h s).2).1])
      by by rewrite <- app_assoc.
    rewrite !fetches_snoc by done. done.
Qed.

End ServiceClaims.

Section CronFacts.

Local Open Scope Z_scope.

(** The scan finds the first matching minute at or after its start. *)
Lemma search_spec (e : Cron.expr) (depth : nat) (t : Z) :
  match Cron.search e depth t with
  | inl r =>
      t ≤ r ∧ (60 | r - t) ∧ Cron.matches e r = true ∧
      ∀ u, t ≤ u < r → (60 | u - t) → Cron.matches e u = false
  | inr t' =>
      t < t' ∧ (60 | t' - t) ∧
      ∀ u, t ≤ u < t' → (60 | u - t) → Cron.matches e u = false
  end.
Proof.
  revert t. induction depth as [|depth IH]; intros t; simpl.
  - destruct (Cron.matches e t) eqn:Hm.
    + repeat split; [lia | exists 0; lia | done | intros u Hu; lia].
    + repeat split; [lia | exists 1; lia |].
      intros u Hu [k Hk]. assert (u = t) as -> by lia. done.
  - pose proof (IH t) as H1. destruct (Cron.search e depth t) as [r|t1].
    + exact H1.
    + destruct H1 as (Hlt & [k1 Hk1] & Hno1).
      pose proof (IH t1) as H2. destruct (Cron.search e depth t1) as [r|t2].
      * destruct H2 as (Hle & [k2 Hk2] & Hm & Hno2).
        repeat split; [lia | exists (k1 + k2); lia | done |].
        intros u Hu [k Hk]. destruct (decide (u < t1)) as [Hu1|Hu1].
        -- apply Hno1; [lia | exists k; lia].
        -- apply Hno2; [lia | exists (k - k1); lia].
      * destruct H2 as (Hlt2 & [k2 Hk2] & Hno2).
        repeat split; [lia | exists (k1 + k2); lia |].
        intros u Hu [k Hk]. destruct (decide (u < t1)) as [Hu1|Hu1].
        -- apply Hno1; [lia | exists k; lia].
        -- apply Hno2; [lia | exists (k - k1); lia].
Qed.

(** What croniter answers: the first minute strictly after the start time
    on which the expression matches. *)
Lemma get_next_spec (cron : string) (start t : Z) :
  Cron.get_next cron start = Ok t →
  ∃ e, Cron.parse cron = Some e ∧
    start < t ∧ t mod 60 = 0 ∧ Cron.matches e t = true ∧
    ∀ u, start < u < t → u mod 60 = 0 → Cron.matches e u = false.
Proof.
  unfold Cron.get_next. destruct (Cron.parse cron) as [e|]; [|done].
  pose proof (search_spec e Cron.horizon ((start / 60 + 1) * 60)) as Hs.
  destruct (Cron.search e Cron.horizon ((start / 60 + 1) * 60)) as [r|t'];
    [|done].
  intros [= <-]. destruct Hs as (Hle & [k Hk] & Hm & Hno).
  exists e. split; [done|].
  assert (Hstart : start < (start / 60 + 1) * 60).
  { pose proof (Z.div_mod start 60). pose proof (Z.mod_pos_bound start 60).
    lia. }
  repeat split; try done; [lia | |].
  - replace r with ((k + start / 60 + 1) * 60) by lia. apply Z.mod_mul. lia.
  - intros u Hu Hmod. apply Hno.
    + apply Z.mod_divide in Hmod as [j Hj]; [|lia].
      pose proof (Z.div_mod start 60). pose proof (Z.mod_pos_bound start 60).
      nia.
    + apply Z.mod_divide in Hmod as [j Hj]; [|lia].
      exists (j - (start / 60 + 1)). lia.
Qed.

Lemma era_days_ok_spec (n : nat) (doe k : Z) :
  Cron.era_days_ok n doe = true → doe ≤ k < doe + Z.of_nat n →
  Cron.era_day_ok k = true.
Proof.
  revert doe. induction n as [|n IH]; intros doe; simpl; [lia|].
  intros [H1 H2]%andb_true_iff Hk.
  destruct (decide (k = doe)) as [->|Hne]; [done|].
  apply (IH (doe + 1)); [done|lia].
Qed.

Lemma era_checked : Cron.era_days_ok (Z.to_nat 146097) 0 = true.
Proof. vm_compute. reflexivity. Qed.

(** Every time falls in a month from 1 to 12, on a day from 1 to 31. *)
Lemma civil_in_range (t : Z) :
  1 ≤ Cron.month_of t ≤ 12 ∧ 1 ≤ Cron.day_of t ≤ 31.
Proof.
  unfold Cron.month_of, Cron.day_of, Cron.civil_from_days.
  set (z := t / 86400 + 719468).
  assert (Hdoe : 0 ≤ z - z / 146097 * 146097 < 0 + Z.of_nat (Z.to_nat 146097)).
  { pose proof (Z.div_mod z 146097). pose proof (Z.mod_pos_bound z 146097).
    lia. }
  pose proof (era_days_ok_spec _ _ _ era_checked Hdoe) as Hok.
  unfold Cron.era_day_ok in Hok.
  destruct (Cron.civil_of_era_day (z - z / 146097 * 146097)) as [[y m] d].
  simpl. apply andb_true_iff in Hok as [[[H1 H2]%andb_true_iff H3]%andb_true_iff H4].
  lia.
Qed.

(** ["0 * * * *"] matches exactly the times whose minute is 0. *)
Lemma hourly_matches (e : Cron.expr) (t : Z) :
  Cron.parse "0 * * * *" = Some e →
  Cron.matches e t = (Cron.minute_of t =? 0).
Proof.
  intros He. vm_compute in He. injection He as <-.
  destruct (civil_in_range t) as [Hm Hd].
  assert (Hh : 0 ≤ Cron.hour_of t < 24) by (apply Z.mod_pos_bound; lia).
  assert (Hw : 0 ≤ Cron.weekday_of t < 7) by (apply Z.mod_pos_bound; lia).
  assert (Hmin : 0 ≤ Cron.minute_of t < 60) by (apply Z.mod_pos_bound; lia).
  unfold Cron.matches, Cron.day_matches, Cron.field_matches, Cron.item_matches.
  cbn [Cron.minutes Cron.hours Cron.days Cron.months Cron.weekdays Cron.items
       Cron.star Cron.first Cron.last Cron.step existsb orb andb].
  rewrite !Z.mod_1_r.
  repeat match goal with
         | |- context [?a <=? ?b] => destruct (Z.leb_spec a b); try lia
         end.
  all: simpl; destruct (Z.eqb_spec (Cron.minute_of t) 0); simpl; try lia;
    done.
Qed.

Lemma get_next_later (cron : string) (start t : Z) :
  Cron.get_next cron start = Ok t → start < t.
Proof. intros (e & _ & Hlt & _)%get_next_spec. done. Qed.

End CronFacts.

Section CronClaim.
Context {St : Type} {E : Env St}.

Local Open Scope Z_scope.

(** C4. With croniter as modelled, [next_cron_occurrence] reads the clock
    and returns the first time strictly after that reading which lies on a
    whole minute and on which the five fields of the expression match;
    ["0 * * * *"] matches exactly the times whose minute is 0, and read at
    2021-01-01T10:15:00Z its next occurrence is 2021-01-01T11:00:00Z. *)
Theorem C4_next_cron_occurrence (cron : string) (w : World St) :
  (∀ c t, env_croniter_get_next c t = Cron.get_next c t) →
  let now := (env_utcnow (ext w)).1 in
  (∀ t, (next_cron_occurrence cron w).1 = Ok t →
     ∃ e, Cron.parse cron = Some e ∧
       now < t ∧ t mod 60 = 0 ∧ Cron.matches e t = true ∧
       ∀ u, now < u < t → u mod 60 = 0 → Cron.matches e u = false)
  ∧ (cron = "0 * * * *" →
     (∀ e u, Cron.parse cron = Some e →
             Cron.matches e u = (Cron.minute_of u =? 0))
     ∧ (now = Cron.utc 2021 1 1 10 15 0 →
        (next_cron_occurrence cron w).1 = Ok (Cron.utc 2021 1 1 11 0 0))).
Proof.
  intros Hcron now. rewrite next_cron_occurrence_run. cbn [fst].
  rewrite Hcron. fold now. split.
  - intros t Ht. by apply get_next_spec.
  - intros ->. split.
    + intros e u He. by apply hourly_matches.
    + intros ->. vm_compute. reflexivity.
Qed.

End CronClaim.

Section RecordOfABatch.
Context {St : Type} {E : Env St}.

Lemma visits_app (cs1 cs2 : list call) :
  visits (cs1 ++ cs2) = visits cs1 ++ visits cs2.
Proof. apply omap_app. Qed.

Lemma fetches_app (cs1 cs2 : list call) :
  fetches (cs1 ++ cs2) = fetches cs1 ++ fetches cs2.
Proof. apply omap_app. Qed.

(** A batch executes each of its events once, in order, and fetches
    nothing. *)
Lemma process_events_record (events : list Event) (w : World St) :
  ∃ added,
    calls (process_events events w).2 = calls w ++ added ∧
    visits added = map key events ∧ fetches added = [].
Proof.
  destruct (process_events_calls (λ _, True) events w) as
    [(-> & -> & _)|(_ & _ & [(l & ra & _ & Hc & _)|(f & e0 & s0 & _ & Hc & _)])];
    [done..| | |].
  - exists []. by rewrite app_nil_r.
  - eexists. split; [exact Hc|].
    rewrite visits_app, fetches_app, batch_calls_no_fetch.
    rewrite visits_batch_calls by apply outcomes_length.
    simpl. by rewrite app_nil_r.
  - eexists. split; [exact Hc|].
    rewrite batch_calls_no_fetch.
    by rewrite visits_batch_calls by apply outcomes_length.
Qed.

End RecordOfABatch.

Section DrainOfTheStore.

Local Open Scope Z_scope.

Lemma pending_cons (b now : Z) (be : Z * Event) (rest : list (Z * Event)) :
  pending b now (be :: rest)
  = if MemStore.due b now be then be.2 :: pending b now rest
    else pending b now rest.
Proof. unfold pending. simpl. by destruct (MemStore.due b now be). Qed.

Lemma take_due_spec (n : nat) (b now : Z) (table : list (Z * Event)) :
  pending b now table
  = (MemStore.take_due n b now table).1
    ++ pending b now (MemStore.take_due n b now table).2
  ∧ (length (MemStore.take_due n b now table).1 ≤ n)%nat.
Proof.
  revert n. induction table as [|be rest IH]; intros [|n];
    try (simpl; split; [done|lia]).
  rewrite pending_cons. cbn [MemStore.take_due].
  destruct (MemStore.due b now be) eqn:Hd.
  - destruct (IH n) as [Heq Hlen].
    destruct (MemStore.take_due n b now rest) as [got kept]. simpl in *.
    rewrite Heq. split; [done|lia].
  - destruct (IH (S n)) as [Heq Hlen].
    destruct (MemStore.take_due (S n) b now rest) as [got kept].
    cbn [fst snd] in *. rewrite pending_cons, Hd. split; [done|lia].
Qed.

Lemma pending_app (b now : Z) (t1 t2 : list (Z * Event)) :
  pending b now (t1 ++ t2) = pending b now t1 ++ pending b now t2.
Proof. apply omap_app. Qed.

Lemma pending_later (b now : Z) (f : Event → Z) (l : list Event) :
  Forall (λ e, now < trigger e) l →
  pending b now (map (λ e, (f e, e)) l) = [].
Proof.
  induction 1 as [|e l He _ IH]; [done|].
  cbn [map]. rewrite pending_cons. unfold MemStore.due. cbn [fst snd].
  destruct (trigger e <=? now) eqn:Hle; [lia|].
  rewrite andb_false_r. exact IH.
Qed.

Lemma process_events_steady (b now : Z) (D : list Event) (events : list Event)
    (w : World MemStore.state) :
  steady b now D (ext w) → steady b now D (ext (process_events events w).2).
Proof.
  apply (process_events_ext (steady b now D)).
  - intros s [Hc Hp]. split; simpl; [lia|done].
  - intros s [Hc Hp]. by split.
  - intros t g x p v s [Hc Hp]. by split.
  - intros l s [Hc Hp] Hl. split; [done|]. simpl.
    rewrite pending_app, Hp, pending_later; [apply app_nil_r|].
    eapply Forall_impl; [exact Hl|]. intros e' (c & s0 & [Hc0 _] & Hnext).
    apply get_next_later in Hnext. simpl in Hnext. lia.
Qed.

(** The drain loop over the store, for a batch size of at least one. *)
Lemma drain_terminates (b now bs : Z) (fuel : nat) (w : World MemStore.state) :
  0 < bs →
  now ≤ MemStore.clock (ext w) →
  (length (pending b now (MemStore.events (ext w))) < fuel)%nat →
  ∃ w' added full short,
    check_events_in_bucket fuel b now bs w = Some (Ok tt, w') ∧
    now ≤ MemStore.clock (ext w') ∧
    calls w' = calls w ++ added ∧
    visits added ++ map key (pending b now (MemStore.events (ext w')))
    = map key (pending b now (MemStore.events (ext w))) ∧
    fetches added = map (λ evs, (b, now, bs, Ok evs)) (full ++ [short]) ∧
    Forall (λ evs, Z.of_nat (length evs) = bs) full ∧
    (Z.of_nat (length short) < bs
     ∨ ∃ f, last (logs w') = Some (LogErr (Some f) "")).
Proof.
  intros Hbs. unfold check_events_in_bucket.
  revert w. induction fuel as [|fuel IH]; intros w Hclock Hfuel; [lia|].
  rewrite _do_check_step, store_fetch_and_delete_run. cbv zeta.
  cbn [env_fetch_and_delete MemStore.env]. unfold MemStore.fetch_and_delete.
  destruct (take_due_spec (Z.to_nat bs) b now (MemStore.events (ext w)))
    as [Hsplit Hgot].
  destruct (MemStore.take_due (Z.to_nat bs) b now (MemStore.events (ext w)))
    as [got kept]. cbn [fst snd] in *.
  set (w1 := mkWorld _ _ _ _ _ _).
  assert (Hsteady : steady b now (pending b now kept) (ext w1)) by by split.
  apply (process_events_steady _ _ _ got) in Hsteady as [Hclock2 Hpend2].
  destruct (process_events_record got w1) as (batch & Hcalls & Hvis & Hfet).
  assert (Hvisited : ∀ rest : list call,
    visits (([CFetchAndDelete b now bs (Ok got)] ++ batch) ++ rest)
    = map key got ++ visits rest).
  { intros rest. by rewrite !visits_app, Hvis. }
  assert (Hfetched : ∀ rest : list call,
    fetches (([CFetchAndDelete b now bs (Ok got)] ++ batch) ++ rest)
    = (b, now, bs, Ok got) :: fetches rest).
  { intros rest. by rewrite !fetches_app, Hfet. }
  destruct (process_events got w1) as [[n|f] w2] eqn:Hproc;
    cbn [fst snd] in *.
  - apply process_events_count in Hproc as ->.
    destruct (Z.of_nat (length got) =? bs) eqn:Hfull.
    + apply Z.eqb_eq in Hfull.
      destruct (IH w2) as (w' & added & full & short & Hrun & Hc' & Hcs & Hv
                            & Hf & Hall & Hlast).
      { done. }
      { rewrite Hpend2. rewrite Hsplit, length_app in Hfuel. lia. }
      exists w', (([CFetchAndDelete b now bs (Ok got)] ++ batch) ++ added),
        (got :: full), short.
      split; [done|]. split; [done|]. split.
      { rewrite Hcs, Hcalls. subst w1. simpl. by rewrite <- !app_assoc. }
      split.
      { rewrite Hvisited, <- app_assoc, Hv, Hpend2, Hsplit, map_app. done. }
      split; [by rewrite Hfetched, Hf|]. split; [by constructor|done].
    + apply Z.eqb_neq in Hfull.
      exists w2, (([CFetchAndDelete b now bs (Ok got)] ++ batch) ++ []), [],
        got.
      split; [done|]. split; [done|]. split.
      { rewrite Hcalls. subst w1. simpl. by rewrite app_nil_r, <- !app_assoc. }
      split.
      { rewrite Hvisited, Hpend2, Hsplit, map_app. simpl. by rewrite app_nil_r. }
      split; [by rewrite Hfetched|]. split; [constructor|]. left. lia.
  - rewrite log_err_run.
    eexists _, (([CFetchAndDelete b now bs (Ok got)] ++ batch) ++ []), [], got.
    split; [done|]. cbn [ext calls logs]. split; [done|]. split.
    { rewrite Hcalls. subst w1. simpl. by rewrite app_nil_r, <- !app_assoc. }
    split.
    { rewrite Hvisited, Hpend2, Hsplit, map_app. simpl. by rewrite app_nil_r. }
    split; [by rewrite Hfetched|]. split; [constructor|]. right. exists f.
    apply last_snoc.
Qed.

End DrainOfTheStore.

Section DrainClaim.

Local Open Scope Z_scope.

(** With a batch size of zero every fetch returns zero events, which is the
    batch size: the loop polls again, whatever the fuel. *)
Lemma drain_of_nothing (fuel : nat) (b now : Z) (w : World MemStore.state) :
  check_events_in_bucket fuel b now 0 w = None.
Proof.
  unfold check_events_in_bucket. revert w.
  induction fuel as [|fuel IH]; intros w; [done|].
  rewrite _do_check_step, store_fetch_and_delete_run. cbv zeta.
  cbn [env_fetch_and_delete MemStore.env]. unfold MemStore.fetch_and_delete.
  replace (MemStore.take_due (Z.to_nat 0) b now (MemStore.events (ext w)))
    with (@nil Event, MemStore.events (ext w))
    by by destruct (MemStore.events (ext w)).
  simpl. apply IH.
Qed.

(** C2, amended.  For a batch size of at least one and a clock that has
    reached [now]: a turn of the loop, over any collaborators, polls the
    same bucket again exactly when its fetch fired and the batch was
    processed without failure and counted [batchsize] events (the count of
    a processed batch being its length); over the store, given fuel beyond
    the number of due events, the loop stops with a fired deferred, every
    fetch but the last returned [batchsize] events, the last returned fewer
    or its batch failed and was logged, and the events executed followed by
    the events still due are the events that were due, in order. *)
Theorem C2_drain_loop_stops (b now bs : Z) (fuel : nat)
    (w : World MemStore.state) :
  0 < bs →
  now ≤ MemStore.clock (ext w) →
  (length (pending b now (MemStore.events (ext w))) < fuel)%nat →
  (∀ (St : Type) (E : Env St) (fuel' : nat) (w0 : World St),
     _do_check (S fuel') b now bs w0
     = match store_fetch_and_delete b now bs w0 with
       | (Failed f, w1) => Some (log_err f "" w1)
       | (Ok events, w1) =>
           match process_events events w1 with
           | (Failed f, w2) => Some (log_err f "" w2)
           | (Ok n, w2) =>
               if n =? bs then _do_check fuel' b now bs w2
               else Some (Ok tt, w2)
           end
       end)
  ∧ (∀ (St : Type) (E : Env St) (events : list Event) (w0 w1 : World St) n,
       process_events events w0 = (Ok n, w1) → n = Z.of_nat (length events))
  ∧ ∃ w' added full short,
      check_events_in_bucket fuel b now bs w = Some (Ok tt, w') ∧
      calls w' = calls w ++ added ∧
      fetches added = map (λ evs, (b, now, bs, Ok evs)) (full ++ [short]) ∧
      Forall (λ evs, Z.of_nat (length evs) = bs) full ∧
      (Z.of_nat (length short) < bs
       ∨ ∃ f, last (logs w') = Some (LogErr (Some f) "")) ∧
      visits added ++ map key (pending b now (MemStore.events (ext w')))
      = map key (pending b now (MemStore.events (ext w))).
Proof.
  intros Hbs Hclock Hfuel.
  split; [intros; apply _do_check_step|].
  split; [intros St E events w0 w1 n; apply process_events_count|].
  destruct (drain_terminates b now bs fuel w Hbs Hclock Hfuel)
    as (w' & added & full & short & Hrun & _ & Hc & Hv & Hf & Hall & Hlast).
  by exists w', added, full, short.
Qed.

End DrainClaim.

(** * Instances *)

Section Instances.

Local Open Scope Z_scope.

(** The end-to-end case of the spec: three one-shot events due in one
    bucket, drained in batches of two.  Two fetches, of two events and of
    one; each event executed once; nothing recreated. *)
Example drain_three_by_two :
  ∃ w', check_events_in_bucket 5 0 100 2 Sample.three_due = Some (Ok tt, w') ∧
    fetches (calls w')
    = [(0, 100, 2, Ok [Sample.again; Sample.once]);
       (0, 100, 2, Ok [Sample.again])] ∧
    visits (calls w') = map key [Sample.again; Sample.once; Sample.again] ∧
    inserts (calls w') = [[]; []] ∧
    MemStore.events (ext w') = [(1, Sample.once)].
Proof.
  eexists. split; [vm_compute; reflexivity|]. repeat split; reflexivity.
Qed.

Lemma C2_witness :
  0 < 2 ∧ 100 ≤ MemStore.clock (ext Sample.three_due) ∧
  (length (pending 0 100 (MemStore.events (ext Sample.three_due))) < 5)%nat ∧
  ∃ w' added full short,
    check_events_in_bucket 5 0 100 2 Sample.three_due = Some (Ok tt, w') ∧
    calls w' = calls Sample.three_due ++ added ∧
    fetches added = map (λ evs, (0, 100, 2, Ok evs)) (full ++ [short]) ∧
    Forall (λ evs, Z.of_nat (length evs) = 2) full ∧
    (Z.of_nat (length short) < 2
     ∨ ∃ f, last (logs w') = Some (LogErr (Some f) "")) ∧
    visits added ++ map key (pending 0 100 (MemStore.events (ext w')))
    = map key (pending 0 100 (MemStore.events (ext Sample.three_due))).
Proof.
  assert (H1 : 0 < 2) by lia.
  assert (H2 : 100 ≤ MemStore.clock (ext Sample.three_due)) by (simpl; lia).
  assert (H3 : (length (pending 0 100 (MemStore.events (ext Sample.three_due)))
                < 5)%nat) by (vm_compute; lia).
  split; [exact H1|]. split; [exact H2|]. split; [exact H3|].
  exact (proj2 (proj2 (C2_drain_loop_stops 0 100 2 5 Sample.three_due
                         H1 H2 H3))).
Defined.

(** C2 as stated fails twice: with a batch size of zero the loop never
    stops, whatever the fuel; and a fetch that returned [batchsize] events
    is not followed by another when its batch failed (here croniter rejects
    the expression), so that a due event stays in the store. *)
Lemma C2_counterexample :
  (¬ ∃ fuel, is_Some (check_events_in_bucket fuel 0 100 0 Sample.three_due))
  ∧ ∃ w', check_events_in_bucket 5 0 100 1 Sample.two_garbled
          = Some (Ok tt, w') ∧
      fetches (calls w') = [(0, 100, 1, Ok [Sample.garbled])] ∧
      pending 0 100 (MemStore.events (ext w')) = [Sample.garbled].
Proof.
  split.
  - intros [fuel [x Hx]]. rewrite drain_of_nothing in Hx. discriminate.
  - eexists. split; [vm_compute; reflexivity|]. split; reflexivity.
Qed.

Lemma C3_witness :
  kz_partition Sample.releasing = Some 0%nat ∧
  check_events 3 Sample.service 10 Sample.releasing
  = Some (Ok (RetReleased (Ok tt)),
          mkWorld (MemStore.release_set 0%nat (ext Sample.releasing)).2 []
                  (Some 0%nat) true
                  [LogMsg "Partition changed. Repartitioning"]
                  [CReleaseSet 0%nat (Ok tt)]).
Proof.
  split; [reflexivity|].
  exact (proj1 (proj2 (C3_tick_polls_only_when_allocated
                         3 Sample.service 10 Sample.releasing 0%nat eq_refl))
               eq_refl).
Defined.

Lemma C4_witness :
  (∀ c t, env_croniter_get_next (St := MemStore.state) c t = Cron.get_next c t)
  ∧ (next_cron_occurrence "0 * * * *" Sample.new_year).1
    = Ok (Cron.utc 2021 1 1 11 0 0).
Proof.
  split; [reflexivity|].
  exact (proj2 (proj2 (C4_next_cron_occurrence "0 * * * *" Sample.new_year
                         (λ c t, eq_refl)) eq_refl) eq_refl).
Defined.

Lemma C5_witness :
  [Sample.hourly] !! 0%nat = Some Sample.hourly ∧
  (outcomes [Sample.hourly] (ext Sample.refused)).1 !! 0%nat
  = Some ("t", Failed CannotExecutePolicyError) ∧
  LogMsg "Scheduler cannot execute policy p1"
  ∈ logs (process_events [Sample.hourly] Sample.refused).2 ∧
  event_tombstone Sample.hourly ("t", Failed CannotExecutePolicyError) = ∅.
Proof.
  split; [reflexivity|]. split; [reflexivity|].
  pose proof (C5_expected_refusal_keeps_schedule [Sample.hourly]
                Sample.refused 0%nat Sample.hourly
                ("t", Failed CannotExecutePolicyError)
                eq_refl eq_refl eq_refl) as (Hlog & Hnone & _).
  split; [exact Hlog | exact Hnone].
Defined.

(** C5 as stated fails when another event of the batch tombstones the
    policy: the refused event is recurring, yet its policyId is in the
    shared set when the batch ends and the bulk insert is empty. *)
Lemma C5_counterexample :
  [Sample.hourly; Sample.again] !! 0%nat = Some Sample.hourly ∧
  (outcomes [Sample.hourly; Sample.again] (ext Sample.refused_then_gone)).1
    !! 0%nat = Some ("t", Failed CannotExecutePolicyError) ∧
  truthy (cron Sample.hourly) = true ∧
  policyId Sample.hourly
    ∈ default ∅
        (sets (process_events [Sample.hourly; Sample.again]
                              Sample.refused_then_gone).2 !! 0%nat) ∧
  inserts (calls (process_events [Sample.hourly; Sample.again]
                                 Sample.refused_then_gone).2) = [[]].
Proof.
  split; [reflexivity|]. split; [reflexivity|]. split; [reflexivity|].
  split; [|vm_compute; reflexivity].
  apply (bool_decide_unpack _). vm_compute. exact I.
Qed.

Lemma C6_witness :
  [Sample.once] !! 0%nat = Some Sample.once ∧
  (outcomes [Sample.once] (ext Sample.broken)).1 !! 0%nat
  = Some ("t", Failed (OtherError "connection lost")) ∧
  LogErr (Some (OtherError "connection lost"))
         "Scheduler failed to execute policy p2"
  ∈ logs (process_events [Sample.once] Sample.broken).2 ∧
  (∀ e0 ref (w0 : World MemStore.state), (execute_event e0 ref w0).1 = Ok tt).
Proof.
  split; [reflexivity|]. split; [reflexivity|].
  assert (Hty : type_of (OtherError "connection lost")
                ∉ [TCannotExecutePolicyError; TNoSuchScalingGroupError;
                   TNoSuchPolicyError]).
  { rewrite !not_elem_of_cons. repeat split; try discriminate.
    apply not_elem_of_nil. }
  pose proof (C6_other_errors_are_absorbed [Sample.once] Sample.broken 0%nat
                Sample.once ("t", Failed (OtherError "connection lost"))
                (OtherError "connection lost") eq_refl eq_refl eq_refl Hty)
    as (Hlog & _ & Hfires & _).
  split; [exact Hlog | exact Hfires].
Defined.

Lemma C9_witness :
  kz_partition Sample.releasing = Some 0%nat ∧
  stopService Sample.service Sample.releasing
  = (Ok (Ok tt),
     mkWorld (ext Sample.releasing) [] (Some 0%nat) false []
             [CTimerStop; CFinish 0%nat (Ok tt)]).
Proof.
  split; [reflexivity|].
  exact (C9_stop_finishes_the_partitioner Sample.service Sample.releasing
           0%nat eq_refl).
Defined.

Lemma C10_witness :
  [Sample.once] ≠ [] ∧
  ∃ r, calls (process_events [Sample.once] Sample.three_due).2
       = calls Sample.three_due
         ++ batch_calls [Sample.once]
              (outcomes [Sample.once] (ext Sample.three_due)).1
         ++ [CAddCronEvents [] r].
Proof.
  assert (Hne : [Sample.once] ≠ []) by discriminate.
  split; [exact Hne|].
  apply (proj2 (C10_bulk_insert_of_nothing [Sample.once] Sample.three_due Hne)).
  intros e He. left. apply list_elem_of_singleton in He. by rewrite He.
Defined.

End Instances.

(** * Further properties of the scheduler *)

Section DrainRecord.
Context {St : Type} {E : Env St}.

Lemma batch_calls_store (events : list Event)
    (os : list (string * result unit)) :
  Forall store_call (batch_calls events os).
Proof.
  revert os. induction events as [|e es IH]; intros [|o os]; simpl;
    try constructor; try done.
  constructor; [done|]. apply IH.
Qed.

(** What a batch leaves alone. *)
Lemma process_events_frame (events : list Event) (w : World St) :
  let w' := (process_events events w).2 in
  kz_partition w' = kz_partition w ∧ running w' = running w ∧
  (∃ new, sets w' = sets w ++ new) ∧
  ∃ added, calls w' = calls w ++ added ∧ Forall store_call added ∧
           fetches added = [].
Proof.
  intros w'. subst w'. destruct (decide (events = [])) as [->|Hne].
  { simpl. repeat split; try done.
    - exists []. by rewrite app_nil_r.
    - exists []. by rewrite app_nil_r. }
  rewrite process_events_run by done.
  destruct (add_cron_events events _ _) as [ra w2] eqn:Hadd.
  apply (add_cron_events_inv (λ _, True)) in Hadd
    as (Hs & Hk & Hr & Hcases); try done.
  assert (Hw2 : kz_partition w2 = kz_partition w ∧ running w2 = running w ∧
    (∃ new, sets w2 = sets w ++ new) ∧
    ∃ added, calls w2 = calls w ++ added ∧ Forall store_call added ∧
             fetches added = []).
  { split; [by rewrite Hk|]. split; [by rewrite Hr|]. split.
    { rewrite Hs. unfold settled. simpl. by eexists. }
    destruct Hcases as [(l & _ & Hc & _)|(f & e0 & s0 & _ & Hc & _)].
    - eexists. split; [rewrite Hc; unfold settled; simpl;
                       by rewrite <- app_assoc|].
      split.
      + apply Forall_app. split; [apply batch_calls_store|].
        by repeat constructor.
      + rewrite fetches_app, batch_calls_no_fetch. done.
    - eexists. split; [rewrite Hc; unfold settled; simpl; done|].
      split; [apply batch_calls_store | apply batch_calls_no_fetch]. }
  by destruct ra as [[]|f].
Qed.

(** What a drain that has stopped has done. *)
Lemma _do_check_record (fuel : nat) (b now bs : Z) (w w' : World St)
    (r : result unit) :
  _do_check fuel b now bs w = Some (r, w') →
  kz_partition w' = kz_partition w ∧ running w' = running w ∧
  (∃ new, sets w' = sets w ++ new) ∧
  ∃ added r0 rest,
    calls w' = calls w ++ added ∧ Forall store_call added ∧
    fetches added = (b, now, bs, r0) :: rest ∧
    Forall (λ f, fetch_args f = (b, now, bs)) rest.
Proof.
  revert w w' r. induction fuel as [|fuel IH]; intros w w' r; [done|].
  rewrite _do_check_step, store_fetch_and_delete_run. cbv zeta.
  set (r0 := (env_fetch_and_delete b now bs (ext w)).1).
  set (w1 := mkWorld _ _ _ _ _ _).
  assert (Hfirst : ∀ w2 : World St,
    kz_partition w2 = kz_partition w1 → running w2 = running w1 →
    (∃ new, sets w2 = sets w1 ++ new) →
    (∃ added, calls w2 = calls w1 ++ added ∧ Forall store_call added ∧
              fetches added = []) →
    kz_partition w2 = kz_partition w ∧ running w2 = running w ∧
    (∃ new, sets w2 = sets w ++ new) ∧
    ∃ added r1 rest,
      calls w2 = calls w ++ added ∧ Forall store_call added ∧
      fetches added = (b, now, bs, r1) :: rest ∧
      Forall (λ f, fetch_args f = (b, now, bs)) rest).
  { intros w2 Hk Hr Hs (added & Hc & Hstore & Hnone).
    repeat split; try done.
    exists ([CFetchAndDelete b now bs r0] ++ added), r0, [].
    split; [rewrite Hc; subst w1; simpl; by rewrite <- app_assoc|].
    split; [apply Forall_app; split; [by repeat constructor|done]|].
    split; [|constructor]. rewrite fetches_app, Hnone. done. }
  destruct r0 as [events|f] eqn:Hr0.
  - pose proof (process_events_frame events w1) as (Hk & Hr & Hs & Hc).
    destruct (process_events events w1) as [[n|f] w2]; cbn [fst snd] in *.
    + destruct (n =? bs)%Z.
      * intros Hrun. apply IH in Hrun as (Hk3 & Hr3 & [new3 Hs3] & added3 & r3
                                          & rest3 & Hc3 & Hst3 & Hf3 & Hall3).
        destruct Hs as [new Hs]. destruct Hc as (added & Hc & Hstore & Hnone).
        split; [by rewrite Hk3, Hk|]. split; [by rewrite Hr3, Hr|].
        split. { exists (new ++ new3). rewrite Hs3, Hs. subst w1. simpl.
                 by rewrite <- app_assoc. }
        exists (([CFetchAndDelete b now bs (Ok events)] ++ added) ++ added3),
          (Ok events), ((b, now, bs, r3) :: rest3).
        split. { rewrite Hc3, Hc. subst w1. simpl. by rewrite <- !app_assoc. }
        split. { repeat (apply Forall_app; split); try done.
                 by repeat constructor. }
        split. { rewrite !fetches_app, Hnone, Hf3. done. }
        constructor; [done|exact Hall3].
      * intros [= <- <-]. by apply Hfirst.
    + rewrite log_err_run. intros [= <- <-]. by apply Hfirst.
  - rewrite log_err_run. intros [= <- <-]. apply Hfirst; simpl; try done.
    + exists []. by rewrite app_nil_r.
    + exists []. by rewrite app_nil_r.
Qed.

End DrainRecord.

Section DrainEdges.
Context {St : Type} {E : Env St}.

(** X1. When the store's fetch fails, the drain of that bucket ends at
    once: the failure is logged, the loop's deferred fires, and nothing is
    executed or inserted; the failed fetch is the only call made. *)
Theorem failed_fetch_is_logged_and_ends_the_drain (fuel : nat)
    (b now bs : Z) (w : World St) (f : exn) :
  (env_fetch_and_delete b now bs (ext w)).1 = Failed f →
  check_events_in_bucket (S fuel) b now bs w
  = Some (Ok tt,
          mkWorld (env_fetch_and_delete b now bs (ext w)).2 (sets w)
                  (kz_partition w) (running w)
                  (logs w ++ [LogErr (Some f) ""])
                  (calls w ++ [CFetchAndDelete b now bs (Failed f)])).
Proof.
  intros Hf. unfold check_events_in_bucket.
  rewrite _do_check_step, store_fetch_and_delete_run. cbv zeta.
  rewrite Hf. by rewrite log_err_run.
Qed.

(** X2. When the fetch returns no event and the batch size is not zero, the
    drain ends without a trace beyond the fetch itself: no log line, no set
    object, no bulk insert. *)
Theorem empty_fetch_ends_the_drain_quietly (fuel : nat) (b now bs : Z)
    (w : World St) :
  (env_fetch_and_delete b now bs (ext w)).1 = Ok [] →
  bs ≠ 0%Z →
  check_events_in_bucket (S fuel) b now bs w
  = Some (Ok tt,
          mkWorld (env_fetch_and_delete b now bs (ext w)).2 (sets w)
                  (kz_partition w) (running w) (logs w)
                  (calls w ++ [CFetchAndDelete b now bs (Ok [])])).
Proof.
  intros Hf Hbs. unfold check_events_in_bucket.
  rewrite _do_check_step, store_fetch_and_delete_run. cbv zeta.
  rewrite Hf. unfold process_events, ret. cbn beta iota.
  destruct (Z.eqb_spec 0 bs) as [Heq|_]; [by destruct Hbs|done].
Qed.

(** X3. A drain that has stopped has left the service as it was (the
    partitioner handle, the timer) and the set objects of earlier batches
    untouched; it has called only the store and its groups, never the
    coordination service; its first call is a fetch, and every fetch it
    made was for its own bucket, time and batch size. *)
Theorem drain_stays_with_the_store (fuel : nat) (b now bs : Z)
    (w w' : World St) (r : result unit) :
  check_events_in_bucket fuel b now bs w = Some (r, w') →
  kz_partition w' = kz_partition w ∧ running w' = running w ∧
  (∃ new, sets w' = sets w ++ new) ∧
  ∃ added r0 rest,
    calls w' = calls w ++ added ∧ Forall store_call added ∧
    head added = Some (CFetchAndDelete b now bs r0) ∧
    fetches added = (b, now, bs, r0) :: rest ∧
    Forall (λ f, fetch_args f = (b, now, bs)) rest.
Proof.
  unfold check_events_in_bucket. intros Hrun.
  assert (Hhead : ∃ r0 tail,
    calls w' = calls w ++ CFetchAndDelete b now bs r0 :: tail).
  { destruct fuel as [|fuel]; [done|].
    rewrite _do_check_step, store_fetch_and_delete_run in Hrun. cbv zeta in Hrun.
    set (r0 := (env_fetch_and_delete b now bs (ext w)).1) in *.
    set (w1 := mkWorld _ _ _ _ _ _) in *.
    assert (Hgrow : ∀ (w2 w3 : World St) added,
      calls w2 = calls w1 ++ added → (∃ more, calls w3 = calls w2 ++ more) →
      ∃ tail, calls w3 = calls w ++ CFetchAndDelete b now bs r0 :: tail).
    { intros w2 w3 added Hc [more Hm]. exists (added ++ more).
      rewrite Hm, Hc. subst w1. simpl. by rewrite <- !app_assoc. }
    exists r0.
    destruct r0 as [events|f].
    - pose proof (process_events_frame events w1)
        as (_ & _ & _ & added & Hc & _).
      destruct (process_events events w1) as [[n|f] w2]; cbn [fst snd] in *.
      + destruct (n =? bs)%Z.
        * apply _do_check_record in Hrun
            as (_ & _ & _ & added3 & r3 & rest3 & Hc3 & _).
          eapply Hgrow; [exact Hc|]. by exists added3.
        * injection Hrun as <- <-. eapply Hgrow; [exact Hc|].
          exists []. by rewrite app_nil_r.
      + rewrite log_err_run in Hrun. injection Hrun as <- <-.
        eapply (Hgrow w2); [exact Hc|]. exists []. simpl. by rewrite app_nil_r.
    - rewrite log_err_run in Hrun. injection Hrun as <- <-.
      exists []. done. }
  apply _do_check_record in Hrun
    as (Hk & Hr & Hs & added & r0 & rest & Hc & Hst & Hf & Hall).
  repeat split; try done.
  exists added, r0, rest. repeat split; try done.
  destruct Hhead as (r1 & tail & Hc1). rewrite Hc in Hc1.
  apply app_inv_head in Hc1. subst added. simpl in Hf.
  injection Hf as <- _. done.
Qed.



End DrainEdges.

Section BatchExtras.
Context {St : Type} {E : Env St}.

Lemma inserts_app (cs1 cs2 : list call) :
  inserts (cs1 ++ cs2) = inserts cs1 ++ inserts cs2.
Proof. apply omap_app. Qed.

Lemma batch_calls_inserts (events : list Event)
    (os : list (string * result unit)) :
  inserts (batch_calls events os) = [].
Proof.
  revert os. induction events as [|e es IH]; intros [|o os]; simpl;
    first [done | apply IH].
Qed.

Lemma survivors_spec (deleted : gset string) (events : list Event) (e : Event) :
  e ∈ survivors deleted events ↔
  e ∈ events ∧ truthy (cron e) = true ∧ policyId e ∉ deleted.
Proof.
  unfold survivors. rewrite list_elem_of_filter, Is_true_true, survives_true.
  tauto.
Qed.

(** X5. What a batch reschedules, exactly.  The set the executions share
    holds the policyIds of the events whose [modify_state] failed with
    NoSuchScalingGroupError or NoSuchPolicyError and nothing else; it is a
    new set object, so that what earlier batches tombstoned plays no part;
    and a bulk insert of the batch is, position by position, the events of
    the batch with a non-empty cron expression and a policyId outside that
    set, each with only its trigger replaced. *)
Theorem batch_reschedules_exactly_the_survivors (events : list Event)
    (w : World St) :
  let os := (outcomes events (ext w)).1 in
  let T := tombstones events os in
  let w' := (process_events events w).2 in
  (∀ p, p ∈ T ↔
     ∃ i e o, events !! i = Some e ∧ os !! i = Some o ∧ policyId e = p ∧
       (o.2 = Failed NoSuchScalingGroupError
        ∨ o.2 = Failed NoSuchPolicyError))
  ∧ (events ≠ [] → sets w' = sets w ++ [T])
  ∧ (∀ e, e ∈ survivors T events ↔
          e ∈ events ∧ truthy (cron e) = true ∧ policyId e ∉ T)
  ∧ ∃ added,
      calls w' = calls w ++ added ∧
      ∀ l ra, CAddCronEvents l ra ∈ added →
        Forall2 retriggered (survivors T events) l.
Proof.
  intros os T w'. split; [|split; [|split; [apply survivors_spec|]]].
  - intros p. split.
    + intros (i & e & o & He & Ho & Hp & Ht)%tombstones_elim.
      exists i, e, o. repeat split; try done. by apply tombstoning_spec.
    + intros (i & e & o & He & Ho & <- & Ht).
      eapply tombstones_intro; [done..|]. by apply tombstoning_spec.
  - intros Hne.
    destruct (process_events_calls (λ _, True) events w)
      as [(-> & _)|(_ & Hs & _)]; done.
  - destruct (process_events_calls (λ _, True) events w) as
      [(-> & Hw & _)|(_ & _ & [(l & ra & Hl & Hc & _)|(f & e0 & s0 & _ & Hc & _)])];
      [done..| | |].
    + exists []. subst w'. rewrite Hw, app_nil_r. split; [done|].
      intros l ra Hin. by apply not_elem_of_nil in Hin.
    + eexists. split; [exact Hc|]. intros l0 ra0 Hin.
      apply elem_of_app in Hin as [Hin|Hin].
      { by apply batch_calls_no_insert in Hin. }
      apply list_elem_of_singleton in Hin. injection Hin as -> ->.
      eapply Forall2_impl; [exact Hl|]. by intros e e' [Hre _].
    + eexists. split; [exact Hc|]. intros l0 ra0 Hin.
      by apply batch_calls_no_insert in Hin.
Qed.

Lemma cron_loop_bad (events : list Event) (deleted : gset string)
    (acc : list Event) (w : World St) (e : Event) :
  e ∈ survivors deleted events →
  (∀ t, ∃ f, env_croniter_get_next (default "" (cron e)) t = Failed f) →
  ∃ f, (cron_loop events deleted acc w).1 = Failed f.
Proof.
  intros He Hbad. revert acc w.
  induction events as [|e0 es IH]; intros acc w.
  { by apply not_elem_of_nil in He. }
  simpl. unfold survivors in He.
  assert (Hsv : survives deleted e0
                = truthy (cron e0) && negb (bool_decide (policyId e0 ∈ deleted)))
    by reflexivity.
  destruct (truthy (cron e0) && negb (bool_decide (policyId e0 ∈ deleted))).
  - rewrite filter_cons_True in He by (by rewrite Hsv).
    unfold bind. rewrite next_cron_occurrence_run.
    destruct (env_croniter_get_next (default "" (cron e0)) _) as [t|f] eqn:Hc.
    + apply elem_of_cons in He as [->|He].
      * destruct (Hbad (env_utcnow (ext w)).1) as [f Hf]. congruence.
      * by apply IH.
    + by exists f.
  - rewrite filter_cons_False in He by (rewrite Hsv; intros []).
    by apply IH.
Qed.

(** X6. One expression that croniter rejects stops the rescheduling of the
    whole batch: when it belongs to an event the rescheduler keeps, the
    batch fails, every event of the batch has been executed by then, and no
    bulk insert is made, not even for the other recurring events. *)
Theorem one_bad_expression_stops_the_rescheduling (events : list Event)
    (w : World St) (e : Event) :
  let os := (outcomes events (ext w)).1 in
  let w' := (process_events events w).2 in
  e ∈ events →
  truthy (cron e) = true →
  policyId e ∉ tombstones events os →
  (∀ t, ∃ f, env_croniter_get_next (default "" (cron e)) t = Failed f) →
  (∃ f, (process_events events w).1 = Failed f) ∧
  calls w' = calls w ++ batch_calls events os ∧
  visits (batch_calls events os) = map key events ∧
  inserts (batch_calls events os) = [].
Proof.
  intros os w' He Hcron Hp Hbad.
  assert (Hne : events ≠ []).
  { intros ->. by apply not_elem_of_nil in He. }
  assert (Hrun : ∃ f w2,
    add_cron_events events (length (sets w)) (settled events w) = (Failed f, w2)
    ∧ calls w2 = calls (settled events w)).
  { unfold add_cron_events. destruct events as [|e1 es]; [done|].
    unfold bind at 1. unfold set_read. rewrite settled_tombstones.
    fold os. unfold bind at 1.
    pose proof (cron_loop_frame (e1 :: es) (tombstones (e1 :: es) os) []
                  (settled (e1 :: es) w)) as (_ & Hc & _).
    destruct (cron_loop_bad (e1 :: es) (tombstones (e1 :: es) os) []
                (settled (e1 :: es) w) e) as [f Hf]; [|done|].
    { by apply survivors_spec. }
    destruct (cron_loop (e1 :: es) _ [] _) as [[l|f'] w2]; simpl in *; [done|].
    by exists f', w2. }
  destruct Hrun as (f & w2 & Hadd & Hc).
  subst w'. rewrite process_events_run by done. rewrite Hadd. simpl.
  split; [by exists f|]. split; [by rewrite Hc|].
  split; [apply visits_batch_calls, outcomes_length | apply batch_calls_inserts].
Qed.


End BatchExtras.

Section ServiceExtras.
Context {St : Type} {E : Env St}.


Lemma stopService_run (self : SchedulerService) (w : World St) (h : handle) :
  kz_partition w = Some h →
  stopService self w
  = (Ok (env_finish h (ext w)).1,
     mkWorld (env_finish h (ext w)).2 (sets w) (Some h) false (logs w)
             (calls w ++ [CTimerStop; CFinish h (env_finish h (ext w)).1])).
Proof.
  intros Hh. destruct w as [s ss kz rn lg cl]. simpl in Hh. subst kz.
  unfold stopService, bind, emit_call, set_running, get_kz_partition, capture,
    partition_finish, settle. simpl.
  destruct (env_finish h s) as [d s']. simpl. by rewrite <- app_assoc.
Qed.


Lemma tick_rejoins (fuel : nat) (self : SchedulerService) (bs : Z)
    (w : World St) (h : handle) :
  kz_partition w = Some h →
  let st := env_state h (ext w) in
  let full : gset Z := list_to_set (buckets self) in
  let joined := env_SetPartitioner (zk_partition_path self) full 15 in
  (st = Failure →
   check_events fuel self bs w
   = Some (Ok RetNone,
           mkWorld (joined (ext w)).2 (sets w) (Some (joined (ext w)).1)
                   (running w)
                   (logs w ++ [LogMsg "Partition failed. Starting new"])
                   (calls w ++ [CSetPartitioner (zk_partition_path self)
                                  full 15 (joined (ext w)).1])))
  ∧ (∀ name, st = Unknown name →
     let finished := env_finish h (ext w) in
     check_events fuel self bs w
     = Some (Ok RetNone,
             mkWorld (joined finished.2).2 (sets w)
                     (Some (joined finished.2).1) (running w)
                     (logs w ++ [LogErr None
                        ("Unknown state " +:+ name
                         +:+ ". This cannot happen. Starting new")])
                     (calls w ++ [CFinish h finished.1;
                                  CSetPartitioner (zk_partition_path self)
                                    full 15 (joined finished.2).1]))).
Proof.
  intros Hh st full joined. destruct w as [s ss kz rn lg cl]. simpl in Hh.
  subst kz. simpl in st. simpl. split.
  - intros Hst. unfold check_events, bindF, liftF, get_kz_partition, read_ext.
    simpl. fold st. rewrite Hst. simpl.
    unfold rejoin, kz_SetPartitioner, bind, with_ext, emit_call,
      set_kz_partition, retF, liftF, ret. simpl. fold full. fold joined.
    by destruct (joined s).
  - intros name Hst. unfold check_events, bindF, liftF, get_kz_partition,
      read_ext. simpl. fold st. rewrite Hst. simpl.
    unfold rejoin, kz_SetPartitioner, bind, with_ext, emit_call,
      set_kz_partition, retF, liftF, ret, capture, partition_finish, settle.
    simpl. fold full. fold joined.
    destruct (env_finish h s) as [d s1]. simpl.
    destruct (joined s1). simpl. by rewrite <- app_assoc.
Qed.

(** X9. A tick that finds the handle failed replaces it without finishing or
    releasing it, and a stop that follows finishes the replacement: over
    the tick and the stop the coordination service sees the new join and
    the [finish] of the new handle, and no call for the failed one.  A tick
    that finds an unknown state does call [finish] on the old handle, but
    drops its deferred: the tick returns nothing whatever that [finish]
    settled with. *)
Theorem stop_after_rejoin_finishes_the_new_handle (fuel : nat)
    (self : SchedulerService) (bs : Z) (w : World St) (h : handle) :
  kz_partition w = Some h →
  let st := env_state h (ext w) in
  let full : gset Z := list_to_set (buckets self) in
  let joined := env_SetPartitioner (zk_partition_path self) full 15 in
  (st = Failure →
   let h' := (joined (ext w)).1 in
   let finished := env_finish h' (joined (ext w)).2 in
   bindF (check_events fuel self bs) (λ _, liftF (stopService self)) w
   = Some (Ok finished.1,
           mkWorld finished.2 (sets w) (Some h') false
                   (logs w ++ [LogMsg "Partition failed. Starting new"])
                   (calls w ++ [CSetPartitioner (zk_partition_path self)
                                  full 15 h';
                                CTimerStop; CFinish h' finished.1])))
  ∧ (∀ name, st = Unknown name →
     let old := env_finish h (ext w) in
     let h' := (joined old.2).1 in
     let finished := env_finish h' (joined old.2).2 in
     fst <$> check_events fuel self bs w = Some (Ok RetNone) ∧
     bindF (check_events fuel self bs) (λ _, liftF (stopService self)) w
     = Some (Ok finished.1,
             mkWorld finished.2 (sets w) (Some h') false
                     (logs w ++ [LogErr None
                        ("Unknown state " +:+ name
                         +:+ ". This cannot happen. Starting new")])
                     (calls w ++ [CFinish h old.1;
                                  CSetPartitioner (zk_partition_path self)
                                    full 15 h';
                                  CTimerStop; CFinish h' finished.1]))).
Proof.
  intros Hh st full joined.
  destruct (tick_rejoins fuel self bs w h Hh) as [Hfailed Hunknown].
  split.
  - intros Hst h' finished. unfold bindF. rewrite (Hfailed Hst).
    unfold liftF. cbv beta iota. erewrite stopService_run by reflexivity. simpl.
    by rewrite <- app_assoc.
  - intros name Hst old h' finished. unfold bindF.
    rewrite (Hunknown name Hst). split; [done|].
    unfold liftF. cbv beta iota zeta. erewrite stopService_run by reflexivity. simpl.
    by rewrite <- app_assoc.
Qed.

End ServiceExtras.

Section CompleteDrain.

Local Open Scope Z_scope.

Lemma take_due_short (n : nat) (b now : Z) (table : list (Z * Event)) :
  (length (MemStore.take_due n b now table).1 < n)%nat →
  pending b now (MemStore.take_due n b now table).2 = [].
Proof.
  revert n. induction table as [|be rest IH]; intros [|n];
    try (simpl; first [done | lia]).
  rewrite ?pending_cons. cbn [MemStore.take_due].
  destruct (MemStore.due b now be) eqn:Hd.
  - specialize (IH n).
    destruct (MemStore.take_due n b now rest) as [got kept]. simpl in *.
    intros Hlen. apply IH. lia.
  - specialize (IH (S n)).
    destruct (MemStore.take_due (S n) b now rest) as [got kept].
    cbn [fst snd] in *. intros Hlen. rewrite pending_cons, Hd. by apply IH.
Qed.

(** A batch of one-shot events over the store: it fires, and what it
    inserts is empty. *)
Lemma process_one_shot (events : list Event) (w : World MemStore.state) :
  Forall (λ e, truthy (cron e) = false) events →
  (process_events events w).1 = Ok (Z.of_nat (length events)) ∧
  ∃ added,
    calls (process_events events w).2 = calls w ++ added ∧
    visits added = map key events ∧ fetches added = [] ∧
    Forall (λ l, l = []) (inserts added).
Proof.
  intros Hone.
  assert (Hnone : ∀ T, survivors T events = []).
  { intros T. apply survivors_nil. intros e He. left.
    by eapply Forall_forall in Hone. }
  destruct (process_events_calls (λ _, True) events w) as
    [(-> & -> & _)|(Hne & _ & [(l & ra & Hl & Hc & Hr)|(f & e0 & s0 & _ & _ & He0 & _)])];
    [done..| | |].
  - split; [done|]. exists []. rewrite app_nil_r. by repeat split.
  - rewrite Hnone in Hl. apply Forall2_nil_inv_l in Hl as ->.
    assert (Hra : ra = Ok tt).
    { revert Hc. rewrite process_events_run by done.
      unfold add_cron_events. destruct events as [|e es]; [done|].
      unfold bind at 1. unfold set_read. unfold bind at 1.
      rewrite cron_loop_no_survivor by apply Hnone.
      unfold bind, log_msg, emit_log, store_add_cron_events, settle. simpl.
      rewrite <- app_assoc. intros Hc. apply app_inv_head in Hc.
      apply app_inv_head in Hc. by injection Hc as <-. }
    subst ra. split; [exact Hr|]. eexists. split; [exact Hc|].
    rewrite visits_app, fetches_app, inserts_app, batch_calls_no_fetch,
      batch_calls_inserts.
    rewrite visits_batch_calls by apply outcomes_length. simpl.
    rewrite app_nil_r. repeat split; try done. by repeat constructor.
  - rewrite Hnone in He0. by apply not_elem_of_nil in He0.
Qed.

(** X10. Over a store whose due events of the bucket are all one-shot, a
    drain with a batch size of at least one empties the bucket: it stops
    with a fired deferred, every event that was due has been executed
    exactly once and in store order, none is due any more, nothing was
    recreated (every bulk insert was empty), and the number of fetches is
    the number of due events divided by the batch size, plus one. *)
Theorem drain_of_one_shot_events_is_complete (b now bs : Z) (fuel : nat)
    (w : World MemStore.state) :
  0 < bs →
  now ≤ MemStore.clock (ext w) →
  Forall (λ e, truthy (cron e) = false)
         (pending b now (MemStore.events (ext w))) →
  (length (pending b now (MemStore.events (ext w))) < fuel)%nat →
  ∃ w' added,
    check_events_in_bucket fuel b now bs w = Some (Ok tt, w') ∧
    calls w' = calls w ++ added ∧
    visits added = map key (pending b now (MemStore.events (ext w))) ∧
    pending b now (MemStore.events (ext w')) = [] ∧
    Z.of_nat (length (fetches added))
    = Z.of_nat (length (pending b now (MemStore.events (ext w)))) / bs + 1 ∧
    Forall (λ l, l = []) (inserts added).
Proof.
  intros Hbs. unfold check_events_in_bucket.
  revert w. induction fuel as [|fuel IH]; intros w Hclock Hone Hfuel; [lia|].
  rewrite _do_check_step, store_fetch_and_delete_run. cbv zeta.
  cbn [env_fetch_and_delete MemStore.env]. unfold MemStore.fetch_and_delete.
  destruct (take_due_spec (Z.to_nat bs) b now (MemStore.events (ext w)))
    as [Hsplit Hgot].
  pose proof (take_due_short (Z.to_nat bs) b now (MemStore.events (ext w)))
    as Hshort.
  destruct (MemStore.take_due (Z.to_nat bs) b now (MemStore.events (ext w)))
    as [got kept]. cbn [fst snd] in *.
  set (w1 := mkWorld _ _ _ _ _ _).
  rewrite Hsplit in Hone. apply Forall_app in Hone as [Hone1 Hone2].
  assert (Hsteady : steady b now (pending b now kept) (ext w1)) by by split.
  apply (process_events_steady _ _ _ got) in Hsteady as [Hclock2 Hpend2].
  destruct (process_one_shot got w1 Hone1)
    as (Hres & batch & Hcalls & Hvis & Hfet & Hins).
  destruct (process_events got w1) as [r2 w2]. cbn [fst snd] in *. subst r2.
  destruct (Z.of_nat (length got) =? bs) eqn:Hfull.
  - apply Z.eqb_eq in Hfull.
    destruct (IH w2) as (w' & added & Hrun & Hcs & Hv & Hp & Hn & Hi).
    { done. }
    { by rewrite Hpend2. }
    { rewrite Hpend2. rewrite Hsplit, length_app in Hfuel. lia. }
    exists w', (([CFetchAndDelete b now bs (Ok got)] ++ batch) ++ added).
    split; [done|]. split.
    { rewrite Hcs, Hcalls. subst w1. simpl. by rewrite <- !app_assoc. }
    split.
    { rewrite !visits_app, Hvis, Hv, Hpend2, Hsplit, map_app. done. }
    split; [done|]. split.
    { rewrite !fetches_app, Hfet, !length_app, Hsplit, length_app. simpl.
      rewrite Hpend2 in Hn.
      replace (Z.of_nat (length got + length (pending b now kept)))
        with (Z.of_nat (length (pending b now kept)) + 1 * bs) by lia.
      rewrite Z.div_add by lia. lia. }
    rewrite !inserts_app. repeat (apply Forall_app; split); try done.
  - apply Z.eqb_neq in Hfull.
    assert (Hempty : pending b now kept = []) by (apply Hshort; lia).
    exists w2, ([CFetchAndDelete b now bs (Ok got)] ++ batch).
    split; [done|]. split.
    { rewrite Hcalls. subst w1. simpl. by rewrite <- !app_assoc. }
    split.
    { rewrite !visits_app, Hvis, Hsplit, Hempty, app_nil_r. done. }
    split; [by rewrite Hpend2|]. split.
    { rewrite !fetches_app, Hfet, Hsplit, Hempty, !app_nil_r. simpl.
      rewrite Z.div_small by lia. lia. }
    rewrite !inserts_app. apply Forall_app. split; [constructor|done].
Qed.

End CompleteDrain.

Section ExtraInstances.

Local Open Scope Z_scope.

Lemma failed_fetch_witness :
  (env_fetch_and_delete (Env := Outage.env) 0 100 2 (ext Sample.three_due)).1
  = Failed Outage.lost ∧
  check_events_in_bucket (E := Outage.env) 1 0 100 2 Sample.three_due
  = Some (Ok tt,
          mkWorld (ext Sample.three_due) [] (Some 0%nat) true
                  [LogErr (Some Outage.lost) ""]
                  [CFetchAndDelete 0 100 2 (Failed Outage.lost)]).
Proof.
  split; [reflexivity|].
  exact (failed_fetch_is_logged_and_ends_the_drain (E := Outage.env)
           0 0 100 2 Sample.three_due Outage.lost eq_refl).
Defined.

Lemma empty_fetch_witness :
  (env_fetch_and_delete 7 100 2 (ext Sample.three_due)).1 = Ok [] ∧
  2 ≠ 0 ∧
  check_events_in_bucket 1 7 100 2 Sample.three_due
  = Some (Ok tt,
          mkWorld (ext Sample.three_due) [] (Some 0%nat) true []
                  [CFetchAndDelete 7 100 2 (Ok [])]).
Proof.
  assert (H2 : 2 ≠ 0) by discriminate.
  split; [reflexivity|]. split; [exact H2|].
  exact (empty_fetch_ends_the_drain_quietly 0 7 100 2 Sample.three_due
           eq_refl H2).
Defined.

Lemma drain_stays_witness :
  check_events_in_bucket 5 0 100 2 Sample.three_due = Some (Ok tt, Run.drained)
  ∧ kz_partition Run.drained = kz_partition Sample.three_due
  ∧ running Run.drained = running Sample.three_due.
Proof.
  assert (Hrun : check_events_in_bucket 5 0 100 2 Sample.three_due
                 = Some (Ok tt, Run.drained)) by (vm_compute; reflexivity).
  split; [exact Hrun|].
  pose proof (drain_stays_with_the_store 5 0 100 2 Sample.three_due
                Run.drained (Ok tt) Hrun) as (Hk & Hr & _).
  split; [exact Hk | exact Hr].
Defined.


Lemma bad_expression_witness :
  Sample.garbled ∈ [Sample.hourly; Sample.garbled] ∧
  truthy (cron Sample.garbled) = true ∧
  (∀ t, ∃ f, env_croniter_get_next (St := MemStore.state)
               (default "" (cron Sample.garbled)) t = Failed f) ∧
  (∃ f, (process_events [Sample.hourly; Sample.garbled] Sample.three_due).1
        = Failed f) ∧
  inserts (calls (process_events [Sample.hourly; Sample.garbled]
                                 Sample.three_due).2) = [].
Proof.
  assert (Hin : Sample.garbled ∈ [Sample.hourly; Sample.garbled])
    by apply list_elem_of_further, list_elem_of_here.
  assert (Hbad : ∀ t, ∃ f, env_croniter_get_next (St := MemStore.state)
               (default "" (cron Sample.garbled)) t = Failed f)
    by (intros t; exists CroniterError; vm_compute; reflexivity).
  assert (Hp : policyId Sample.garbled
               ∉ tombstones [Sample.hourly; Sample.garbled]
                   (outcomes [Sample.hourly; Sample.garbled]
                             (ext Sample.three_due)).1).
  { apply (bool_decide_unpack _). vm_compute. exact I. }
  split; [exact Hin|]. split; [reflexivity|]. split; [exact Hbad|].
  pose proof (one_bad_expression_stops_the_rescheduling
                [Sample.hourly; Sample.garbled] Sample.three_due
                Sample.garbled Hin eq_refl Hp Hbad) as (Hfail & Hc & _ & Hi).
  split; [exact Hfail|]. rewrite Hc. simpl calls. exact Hi.
Defined.


Lemma rejoin_witness :
  kz_partition Run.failed_session = Some 0%nat ∧
  env_state 0%nat (ext Run.failed_session) = Failure ∧
  calls (world_after
           (bindF (check_events 3 Sample.service 2)
                  (λ _, liftF (stopService Sample.service))
                  Run.failed_session)
           Run.failed_session)
  = [CSetPartitioner "/scheduler" (list_to_set [0; 1]) 15 1%nat;
     CTimerStop; CFinish 1%nat (Ok tt)].
Proof.
  assert (Hst : env_state 0%nat (ext Run.failed_session) = Failure)
    by reflexivity.
  split; [reflexivity|]. split; [exact Hst|].
  rewrite (proj1 (stop_after_rejoin_finishes_the_new_handle 3 Sample.service 2
                    Run.failed_session 0%nat eq_refl) Hst).
  vm_compute. reflexivity.
Defined.

Lemma complete_drain_witness :
  0 < 2 ∧ 100 ≤ MemStore.clock (ext Sample.three_due) ∧
  Forall (λ e, truthy (cron e) = false)
         (pending 0 100 (MemStore.events (ext Sample.three_due))) ∧
  (length (pending 0 100 (MemStore.events (ext Sample.three_due))) < 5)%nat ∧
  ∃ w' added,
    check_events_in_bucket 5 0 100 2 Sample.three_due = Some (Ok tt, w') ∧
    calls w' = calls Sample.three_due ++ added ∧
    visits added
    = map key (pending 0 100 (MemStore.events (ext Sample.three_due))) ∧
    pending 0 100 (MemStore.events (ext w')) = [] ∧
    Z.of_nat (length (fetches added))
    = Z.of_nat (length (pending 0 100
                          (MemStore.events (ext Sample.three_due)))) / 2 + 1 ∧
    Forall (λ l, l = []) (inserts added).
Proof.
  assert (H1 : 0 < 2) by lia.
  assert (H2 : 100 ≤ MemStore.clock (ext Sample.three_due)) by (simpl; lia).
  assert (H3 : Forall (λ e, truthy (cron e) = false)
                 (pending 0 100 (MemStore.events (ext Sample.three_due))))
    by (vm_compute; repeat constructor).
  assert (H4 : (length (pending 0 100
                          (MemStore.events (ext Sample.three_due))) < 5)%nat)
    by (vm_compute; lia).
  split; [exact H1|]. split; [exact H2|]. split; [exact H3|].
  split; [exact H4|].
  exact (drain_of_one_shot_events_is_complete 0 100 2 5 Sample.three_due
           H1 H2 H3 H4).
Defined.

End ExtraInstances.
